(** * RagnarokOnlinePlayerMonitor: capture pipeline, flow table and candidate ordering

    A shallow embedding of the Go capture core ([go/network], [app.go]) and of
    the status rendering of the front end, with the properties of the
    specification stated and proved (or refuted) over it. *)

From Stdlib.Strings Require Import Byte Ascii.
From stdpp Require Import gmap strings list sorting pretty.

Local Open Scope nat_scope.

(** ** Go memory: slices over backing arrays

    A Go slice is a window (offset, length, capacity) on a backing array.
    Backing arrays live in a heap indexed by address; allocation appends a
    new cell, so that every address that was valid stays valid and a newly
    made array never aliases an existing one. *)

Module Mem.

Abbreviation addr := nat.

(** A slice header.  [SNil] is Go's nil slice (no backing array). *)
Inductive slice :=
| SNil
| SMk (a : addr) (off len cap : nat).

Global Instance slice_eq_dec : EqDecision slice.
Proof. solve_decision. Defined.

(** Go's built-in [len] and [cap]. *)
Definition len (s : slice) : nat :=
  match s with SNil => 0 | SMk _ _ n _ => n end.

Definition cap (s : slice) : nat :=
  match s with SNil => 0 | SMk _ _ _ c => c end.

Abbreviation heap A := (list (list A)).

Section Ops.
Context {A : Type}.

Definition array (h : heap A) (a : addr) : list A := default [] (h !! a).

(** The elements a slice currently shows. *)
Definition view (h : heap A) (s : slice) : list A :=
  match s with
  | SNil => []
  | SMk a off n _ => take n (drop off (array h a))
  end.

(** [s[i]]; [None] is the run-time panic of an index out of range. *)
Definition index (h : heap A) (s : slice) (i : nat) : option A :=
  view h s !! i.

(** [s[i] = x] for [i < len s]; other indices panic in Go and are never
    used by the code below. *)
Definition store (h : heap A) (s : slice) (i : nat) (x : A) : heap A :=
  match s with
  | SNil => h
  | SMk a off n _ =>
      if i <? n then alter (fun arr => <[off + i := x]> arr) a h else h
  end.

(** [make([]T, n)]: a fresh zeroed array of length and capacity [n]. *)
Definition make (zero : A) (n : nat) (h : heap A) : slice * heap A :=
  (SMk (length h) 0 n n, h ++ [replicate n zero]).

(** [copy(dst, src)]: the first [min (len dst) (len src)] elements. *)
Definition copy (h : heap A) (dst src : slice) : heap A :=
  match dst with
  | SNil => h
  | SMk a off n _ =>
      alter (list_inserts off (take (n `min` len src) (view h src))) a h
  end.

(** The capacity rule of the run time's slice growth (the allocator's
    rounding to size classes left out): double small arrays, grow large
    ones by a quarter, never less than what is needed. *)
Definition growcap (oldcap needed : nat) : nat :=
  let doubled := 2 * oldcap in
  if doubled <? needed then needed
  else if oldcap <? 256 then doubled `max` needed
  else (oldcap + (oldcap + 768) `div` 4) `max` needed.

(** [append(s, x)]: in place when the capacity allows, else into a fresh,
    larger array. *)
Definition append (zero : A) (h : heap A) (s : slice) (x : A)
  : slice * heap A :=
  match s with
  | SMk a off n c =>
      if n <? c
      then (SMk a off (S n) c, alter (fun arr => <[off + n := x]> arr) a h)
      else
        let c' := growcap c (S n) in
        (SMk (length h) 0 (S n) c',
         h ++ [view h s ++ x :: replicate (c' - S n) zero])
  | SNil =>
      let c' := growcap 0 1 in
      (SMk (length h) 0 1 c', h ++ [x :: replicate (c' - 1) zero])
  end.

(** A slice header is well formed in a heap when its window lies inside
    an allocated array. *)
Definition wf_slice (h : heap A) (s : slice) : bool :=
  match s with
  | SNil => true
  | SMk a off n c =>
      bool_decide (a < length h)
      && bool_decide (n ≤ c)
      && bool_decide (off + c ≤ length (array h a))
  end.

End Ops.

End Mem.

Import Mem.

(** ** go/network/connection.go *)

(** [type Payload = []byte]. *)
Abbreviation Payload := slice.

(** The value of an IPv4 address: four octets. *)
Record IP := mkIP { oct1 : byte; oct2 : byte; oct3 : byte; oct4 : byte }.

(** A [net.IP] as the IPv4 layer of gopacket holds it: the four-byte slice
    [data[off:off+4]] of the byte array the frame was decoded in.  It is a
    window on that array and no copy: it shows what the array holds at the
    moment it is read. *)
Record IPSlice := mkIPSlice { ip_arr : addr; ip_off : nat }.

Global Instance byte_eq_dec : EqDecision byte := Byte.byte_eq_dec.

Global Instance IP_eq_dec : EqDecision IP.
Proof. solve_decision. Defined.

(** [time.Time], as a count of clock ticks. *)
Definition Time := Z.

Record ConnectionKey := mkKey {
  kSrcIP : string;
  kDstIP : string;
  kSrcPort : Z;
  kDstPort : Z
}.

Global Instance ConnectionKey_eq_dec : EqDecision ConnectionKey.
Proof. solve_decision. Defined.

Global Instance ConnectionKey_countable : Countable ConnectionKey.
Proof.
  apply (inj_countable'
           (fun k => (kSrcIP k, kDstIP k, kSrcPort k, kDstPort k))
           (fun t => match t with (a, b, c, d) => mkKey a b c d end)).
  by intros [].
Defined.

Record Connection := mkConnection {
  SrcIP : IPSlice;      (* net.IP *)
  DstIP : IPSlice;      (* net.IP *)
  SrcPort : Z;          (* uint16 *)
  DstPort : Z;          (* uint16 *)
  StartTime : Time;
  LastSeen : Time;
  IncomingData : slice; (* []Payload: a slice of byte-slice headers *)
  IsFinished : bool
}.

(** The memory a capture session works in: byte arrays (capture buffers and
    owned chunk copies), arrays of payload headers (the backing arrays of
    [IncomingData]), and the [Connection] structs that [*Connection]
    pointers refer to. *)
Record Memory := mkMemory {
  bytes : heap byte;
  payloads : heap Payload;
  conns : list Connection
}.

(** [net.IP.String] on a four-octet address: dotted decimal. *)
Definition octet_string (b : byte) : string := pretty (Byte.to_N b).

Definition IP_String (a : IP) : string :=
  octet_string (oct1 a) +:+ "." +:+ octet_string (oct2 a) +:+ "." +:+
  octet_string (oct3 a) +:+ "." +:+ octet_string (oct4 a).

(** The four octets at an offset of a byte array.  A slice of a decoded
    layer lies within its buffer and arrays do not shrink (see
    [addresses_in_range] below), so that the default stands for bytes that
    the code is never asked to read. *)
Definition octet_at (l : list byte) (i : nat) : byte := default x00 (l !! i).

Definition IP_at (l : list byte) (off : nat) : IP :=
  mkIP (octet_at l off) (octet_at l (off + 1))
       (octet_at l (off + 2)) (octet_at l (off + 3)).

(** What a [net.IP] shows in a heap of byte arrays. *)
Definition load_IP (bs : heap byte) (s : IPSlice) : IP :=
  IP_at (array bs (ip_arr s)) (ip_off s).

(** The four bytes of a [net.IP] lie within an allocated array. *)
Definition in_range (bs : heap byte) (s : IPSlice) : Prop :=
  ip_off s + 4 ≤ length (array bs (ip_arr s)).

(** [func (c *Connection) Key() ConnectionKey]: [c.SrcIP.String()] and
    [c.DstIP.String()] read the bytes the two slices show when the method is
    called. *)
Definition Key (bs : heap byte) (c : Connection) : ConnectionKey :=
  {| kSrcIP := IP_String (load_IP bs (SrcIP c));
     kDstIP := IP_String (load_IP bs (DstIP c));
     kSrcPort := SrcPort c;
     kDstPort := DstPort c |}.

(** Decimal digits, used to take a dotted address apart again. *)
Definition is_digit (c : ascii) : bool :=
  (48 <=? nat_of_ascii c) && (nat_of_ascii c <=? 57).

(** The leading decimal digits of a string, and what follows them. *)
Fixpoint split_digits (s : string) : string * string :=
  match s with
  | EmptyString => (EmptyString, EmptyString)
  | String c r =>
      if is_digit c
      then (String c (split_digits r).1, (split_digits r).2)
      else (EmptyString, s)
  end.

(** One pass of the body of the inner loop:
    [if len(sp[i]) < len(sp[j]) { sp[i], sp[j] = sp[j], sp[i] }]. *)
Definition compare_swap (h : heap Payload) (sp : slice) (i j : nat)
  : heap Payload :=
  match index h sp i, index h sp j with
  | Some x, Some y =>
      if len x <? len y then store (store h sp i y) sp j x else h
  | _, _ => h
  end.

(** [for j := ...; j < len(sp); j++], with [k] iterations left. *)
Fixpoint inner_loop (k : nat) (i j : nat) (h : heap Payload) (sp : slice)
  : heap Payload :=
  match k with
  | 0 => h
  | S k' => inner_loop k' i (S j) (compare_swap h sp i j) sp
  end.

(** [for i := ...; i < len(sp)-1; i++], with [k] iterations left. *)
Fixpoint outer_loop (k : nat) (i : nat) (h : heap Payload) (sp : slice)
  : heap Payload :=
  match k with
  | 0 => h
  | S k' => outer_loop k' (S i) (inner_loop (len sp - S i) i (S i) h sp) sp
  end.

(** [func (c *Connection) GetIncomingDataSortedByLength() []Payload].
    The receiver is a pointer into [conns]; the result is the returned slice
    ([SNil] for Go's [nil]) and the memory after the call.  [None] is the
    panic of dereferencing an invalid receiver. *)
Definition GetIncomingDataSortedByLength (m : Memory) (c : addr)
  : option (slice * Memory) :=
  match conns m !! c with
  | None => None
  | Some conn =>
      if len (IncomingData conn) =? 0 then Some (SNil, m)
      else
        let '(sortedPackets, h1) :=
          make SNil (len (IncomingData conn)) (payloads m) in
        let h2 := copy h1 sortedPackets (IncomingData conn) in
        let h3 := outer_loop (len sortedPackets - 1) 0 h2 sortedPackets in
        Some (sortedPackets,
              {| bytes := bytes m; payloads := h3; conns := conns m |})
  end.

(** The same loops on the contents of the array being sorted; the heap-level
    loops above are shown to act on their array exactly like these. *)
Definition cswap (l : list Payload) (i j : nat) : list Payload :=
  match l !! i, l !! j with
  | Some x, Some y => if len x <? len y then <[j := x]> (<[i := y]> l) else l
  | _, _ => l
  end.

Fixpoint inner_list (k : nat) (i j : nat) (l : list Payload) : list Payload :=
  match k with
  | 0 => l
  | S k' => inner_list k' i (S j) (cswap l i j)
  end.

Fixpoint outer_list (k : nat) (i : nat) (l : list Payload) : list Payload :=
  match k with
  | 0 => l
  | S k' => outer_list k' (S i) (inner_list (length l - S i) i (S i) l)
  end.

Definition sort_list (l : list Payload) : list Payload :=
  outer_list (length l - 1) 0 l.

(** Descending by length. *)
Definition longer_eq (x y : Payload) : Prop := len y ≤ len x.

(** The loop invariants of the sort: the first [i] places hold chunks at
    least as long as everything after them, and place [i] holds a chunk at
    least as long as those between [i] and [j]. *)
Definition prefix_max (i : nat) (l : list Payload) : Prop :=
  ∀ p q x y, p < i → p < q → l !! p = Some x → l !! q = Some y → len y ≤ len x.

Definition head_max (i j : nat) (l : list Payload) : Prop :=
  ∀ q x y, i < q < j → l !! i = Some x → l !! q = Some y → len y ≤ len x.

(** The specification's ordering, following its words: a stable descending
    sort by length (insertion after every chunk that is at least as long). *)
Fixpoint spec_stable_insert (x : Payload) (l : list Payload) : list Payload :=
  match l with
  | [] => [x]
  | y :: l' =>
      if len y <? len x then x :: y :: l' else y :: spec_stable_insert x l'
  end.

Definition spec_stable_sort_desc (l : list Payload) : list Payload :=
  foldl (fun acc x => spec_stable_insert x acc) [] l.

(** ** go/network: the packet capture service *)

(** The decoded layers of a frame, as gopacket hands them over.  A layer that
    the frame does not have is [None] ([packet.Layer] returns nil).  The
    addresses of the IPv4 layer and the TCP payload are slices of the capture
    buffer the frame was read into. *)
Record IPv4 := mkIPv4 { ip_SrcIP : IPSlice; ip_DstIP : IPSlice }.

Record TCP := mkTCP {
  tcp_SrcPort : Z;     (* layers.TCPPort, a uint16 *)
  tcp_DstPort : Z;
  tcp_FIN : bool;
  tcp_RST : bool;
  tcp_Payload : slice
}.

Record Packet := mkPacket {
  ipv4Layer : option IPv4;
  tcpLayer : option TCP
}.

(** Conversion of a Go [int] to a 16-bit unsigned type keeps the low bits. *)
Definition uint16 (n : Z) : Z := (n `mod` 65536)%Z.

(** [PacketCaptureService]: the filter criteria, the cancellation state of
    its context and the flow table.  The notification channel is unbuffered
    and holds no state of its own; see [Session] for who sends and who
    receives. *)
Record PacketCaptureService := mkPCS {
  ip : string;
  port : Z;            (* int *)
  cancelled : bool;    (* ctx.Done() is closed *)
  connections : gmap ConnectionKey addr   (* map[ConnectionKey]*Connection *)
}.

(** [NewPacketCaptureService]. *)
Definition NewPacketCaptureService (ip0 : string) (port0 : Z)
  : PacketCaptureService :=
  {| ip := ip0; port := port0; cancelled := false; connections := ∅ |}.

(** [pcs.StopCapture()]: cancel the context. *)
Definition pcs_StopCapture (pcs : PacketCaptureService)
  : PacketCaptureService :=
  {| ip := ip pcs; port := port pcs; cancelled := true;
     connections := connections pcs |}.

Definition set_connections (t : gmap ConnectionKey addr)
  (pcs : PacketCaptureService) : PacketCaptureService :=
  {| ip := ip pcs; port := port pcs; cancelled := cancelled pcs;
     connections := t |}.

Definition set_StartTime (t : Time) (c : Connection) : Connection :=
  {| SrcIP := SrcIP c; DstIP := DstIP c; SrcPort := SrcPort c;
     DstPort := DstPort c; StartTime := t; LastSeen := LastSeen c;
     IncomingData := IncomingData c; IsFinished := IsFinished c |}.

Definition set_LastSeen (t : Time) (c : Connection) : Connection :=
  {| SrcIP := SrcIP c; DstIP := DstIP c; SrcPort := SrcPort c;
     DstPort := DstPort c; StartTime := StartTime c; LastSeen := t;
     IncomingData := IncomingData c; IsFinished := IsFinished c |}.

Definition set_IncomingData (s : slice) (c : Connection) : Connection :=
  {| SrcIP := SrcIP c; DstIP := DstIP c; SrcPort := SrcPort c;
     DstPort := DstPort c; StartTime := StartTime c; LastSeen := LastSeen c;
     IncomingData := s; IsFinished := IsFinished c |}.

(** What a goroutine does to the outside: text written to standard output
    and values sent on the connection-close notification channel. *)
Inductive Effect :=
| Print (s : string)
| Send (c : addr).

(** The test of [handlePacket] that lets a frame through: both layers are
    present and [ip.SrcIP.String() == pcs.ip] and
    [tcp.SrcPort == layers.TCPPort(pcs.port)]. *)
Definition accepted (pcs : PacketCaptureService) (m : Memory)
  (packet : Packet) : bool :=
  match ipv4Layer packet, tcpLayer packet with
  | Some ip4, Some tcp =>
      bool_decide (IP_String (load_IP (bytes m) (ip_SrcIP ip4)) = ip pcs)
      && bool_decide (tcp_SrcPort tcp = uint16 (port pcs))
  | _, _ => false
  end.

(** The flow key a frame with both layers is filed under. *)
Definition packet_key (bs : heap byte) (ip4 : IPv4) (tcp : TCP)
  : ConnectionKey :=
  {| kSrcIP := IP_String (load_IP bs (ip_SrcIP ip4));
     kDstIP := IP_String (load_IP bs (ip_DstIP ip4));
     kSrcPort := tcp_SrcPort tcp;
     kDstPort := tcp_DstPort tcp |}.

Definition new_connection_line (bs : heap byte) (c : Connection) : string :=
  "[NEW CONNECTION] " +:+ IP_String (load_IP bs (SrcIP c)) +:+ ":"
  +:+ pretty (SrcPort c)
  +:+ " -> " +:+ IP_String (load_IP bs (DstIP c)) +:+ ":"
  +:+ pretty (DstPort c)
  +:+ String "010"%char "".

(** The struct [handlePacket] builds for a frame:
    [&Connection{SrcIP: ip.SrcIP, DstIP: ip.DstIP, SrcPort: ..., DstPort: ...}].
    The two addresses are the slices of the layer themselves: the struct
    shares their bytes with the capture buffer. *)
Definition conn_of (ip4 : IPv4) (tcp : TCP) : Connection :=
  {| SrcIP := ip_SrcIP ip4; DstIP := ip_DstIP ip4;
     SrcPort := tcp_SrcPort tcp; DstPort := tcp_DstPort tcp;
     StartTime := 0%Z; LastSeen := 0%Z;
     IncomingData := SNil; IsFinished := false |}.

(** [func (pcs *PacketCaptureService) handlePacket(packet gopacket.Packet)].

    [now k] is what the [k]-th call of [time.Now()] made by this invocation
    returns.  The result is the service, the memory and the effects of the
    call.  [uint16(tcp.SrcPort)] converts between two 16-bit types and is the
    identity.  [ip.SrcIP.String()], [conn.Key()] and the [Printf] of the
    two addresses read the bytes of the capture buffer as they are during
    the call.  Every pointer stored in the flow table refers to a struct of
    [conns] (see [table_valid] below), so the default in the read of
    [existingConn.IncomingData] is never used. *)
Definition handlePacket (now : nat → Time) (packet : Packet)
  (pcs : PacketCaptureService) (m : Memory)
  : PacketCaptureService * Memory * list Effect :=
  match ipv4Layer packet with
  | None => (pcs, m, [])
  | Some ip4 =>
  match tcpLayer packet with
  | None => (pcs, m, [])
  | Some tcp =>
  if bool_decide (IP_String (load_IP (bytes m) (ip_SrcIP ip4)) ≠ ip pcs)
     || bool_decide (tcp_SrcPort tcp ≠ uint16 (port pcs))
  then (pcs, m, [])
  else
    (* conn := &Connection{...} *)
    let conn := conn_of ip4 tcp in
    let pconn := length (conns m) in
    let cs0 := conns m ++ [conn] in
    let key := Key (bytes m) conn in
    let '(existingConn, table, cs1, out, calls) :=
      match connections pcs !! key with
      | Some existing => (existing, connections pcs, cs0, [], 0)
      | None =>
          (* conn.StartTime = time.Now(); conn.LastSeen = time.Now();
             pcs.connections[key] = conn; existingConn = conn *)
          (pconn,
           <[key := pconn]> (connections pcs),
           alter (set_LastSeen (now 1))
             pconn (alter (set_StartTime (now 0)) pconn cs0),
           [Print (new_connection_line (bytes m) conn)],
           2)
      end in
    (* existingConn.LastSeen = time.Now() *)
    let cs2 := alter (set_LastSeen (now calls)) existingConn cs1 in
    let payload := tcp_Payload tcp in
    let m' :=
      if 0 <? len payload then
        (* data := make([]byte, len(payload)); copy(data, payload) *)
        let '(data, b1) := make x00 (len payload) (bytes m) in
        let b2 := copy b1 data payload in
        (* existingConn.IncomingData = append(existingConn.IncomingData, data) *)
        let '(inc, ph) :=
          append SNil (payloads m)
            (from_option IncomingData SNil (cs2 !! existingConn)) data in
        {| bytes := b2; payloads := ph;
           conns := alter (set_IncomingData inc) existingConn cs2 |}
      else {| bytes := bytes m; payloads := payloads m; conns := cs2 |} in
    (* if tcp.FIN || tcp.RST { // TODO } *)
    let out' := if tcp_FIN tcp || tcp_RST tcp then out else out in
    (set_connections table pcs, m', out')
  end
  end.

(** The specification's test for a frame to be one from the target, in its
    words: IPv4, TCP, source address equal to the configured address and
    source port equal to the configured port. *)
Definition spec_from_target (pcs : PacketCaptureService) (m : Memory)
  (packet : Packet) : bool :=
  match ipv4Layer packet, tcpLayer packet with
  | Some ip4, Some tcp =>
      bool_decide (IP_String (load_IP (bytes m) (ip_SrcIP ip4)) = ip pcs)
      && bool_decide (tcp_SrcPort tcp = port pcs)
  | _, _ => false
  end.

(** ** The capture library handing frames to the service *)

Record TCPHeader := mkTCPHeader {
  h_SrcPort : Z;
  h_DstPort : Z;
  h_FIN : bool;
  h_RST : bool
}.

(** A frame read from an interface: the bytes of its headers and of its TCP
    payload, the layers gopacket decodes from them, and the capture buffer
    the library puts the bytes in ([f_reuse = Some a] when it reuses one of
    its own buffers, else a new one).  [f_ipv4 = Some o] when the frame has
    an IPv4 header, which starts at byte [o] of the frame; the ports and
    flags of the TCP layer are decoded by value. *)
Record Frame := mkFrame {
  f_reuse : option addr;
  f_header : list byte;
  f_body : list byte;
  f_ipv4 : option nat;
  f_tcp : option TCPHeader
}.

(** The bytes of a frame as captured. *)
Definition frame_data (f : Frame) : list byte := f_header f ++ f_body f.

(** Where the IPv4 header of a frame starts, when gopacket decodes an IPv4
    layer from it: the header has 20 bytes at least, with the source address
    in bytes 12 to 15 and the destination address in bytes 16 to 19. *)
Definition frame_ipv4 (f : Frame) : option nat :=
  match f_ipv4 f with
  | Some o => if o + 20 <=? length (frame_data f) then Some o else None
  | None => None
  end.

(** The two addresses in the bytes of a frame with an IPv4 layer. *)
Definition frame_ips (f : Frame) : option (IP * IP) :=
  (fun o => (IP_at (frame_data f) (o + 12), IP_at (frame_data f) (o + 16)))
    <$> frame_ipv4 f.

(** A capture in progress: the service, the memory, and which byte arrays
    belong to the capture library (its buffers). *)
Record Capture := mkCapture {
  cap_pcs : PacketCaptureService;
  cap_mem : Memory;
  cap_bufs : list addr
}.

(** The decoded TCP payload of a frame held in buffer [a]: with
    [packetSource.NoCopy = true] it is a window on that buffer. *)
Definition frame_payload (f : Frame) (a : addr) : slice :=
  SMk a (length (f_header f)) (length (f_body f)) (length (f_body f)).

Definition decode_frame (f : Frame) (a : addr) : Packet :=
  {| ipv4Layer :=
       (fun o => {| ip_SrcIP := mkIPSlice a (o + 12);
                    ip_DstIP := mkIPSlice a (o + 16) |}) <$> frame_ipv4 f;
     tcpLayer :=
       (fun t => {| tcp_SrcPort := h_SrcPort t; tcp_DstPort := h_DstPort t;
                    tcp_FIN := h_FIN t; tcp_RST := h_RST t;
                    tcp_Payload := frame_payload f a |}) <$> f_tcp f |}.

(** The library reads a frame into a buffer, one of its own that it reuses
    or a new one, and decodes it.  In a buffer that is reused the frame
    overwrites what was there from the start of the buffer on; bytes beyond
    the frame stay. *)
Definition read_frame (f : Frame) (m : Memory) (bufs : list addr)
  : Packet * Memory * list addr :=
  let data := frame_data f in
  let fresh := length (bytes m) in
  let '(a, bs, bufs') :=
    match f_reuse f with
    | Some a =>
        if bool_decide (a ∈ bufs)
        then (a,
              <[a := data ++ drop (length data) (array (bytes m) a)]> (bytes m),
              bufs)
        else (fresh, bytes m ++ [data], fresh :: bufs)
    | None => (fresh, bytes m ++ [data], fresh :: bufs)
    end in
  (decode_frame f a,
   {| bytes := bs; payloads := payloads m; conns := conns m |},
   bufs').

(** One frame through the capture loop: read, then [pcs.handlePacket]. *)
Definition handle_frame (st : Capture) (ev : (nat → Time) * Frame)
  : Capture * list Effect :=
  let '(packet, m1, bufs1) := read_frame ev.2 (cap_mem st) (cap_bufs st) in
  let '(pcs', m', out) := handlePacket ev.1 packet (cap_pcs st) m1 in
  ({| cap_pcs := pcs'; cap_mem := m'; cap_bufs := bufs1 |}, out).

(** The capture after [handlePacket] has been applied to a packet. *)
Definition after_packet (st : Capture) (now : nat → Time) (packet : Packet)
  : Capture :=
  let r := handlePacket now packet (cap_pcs st) (cap_mem st) in
  {| cap_pcs := r.1.1; cap_mem := r.1.2; cap_bufs := cap_bufs st |}.

(** The frames of a session, in the order in which they are handled. *)
Definition handle_frames (st : Capture) (evs : list ((nat → Time) * Frame))
  : Capture :=
  foldl (fun s ev => (handle_frame s ev).1) st evs.

Definition empty_memory : Memory :=
  {| bytes := []; payloads := []; conns := [] |}.

Definition new_capture (ip0 : string) (port0 : Z) : Capture :=
  {| cap_pcs := NewPacketCaptureService ip0 port0;
     cap_mem := empty_memory;
     cap_bufs := [] |}.

(** The Flow Record filed under a key, and the bytes of its chunks. *)
Definition flow_record (st : Capture) (k : ConnectionKey) : option Connection :=
  p ← connections (cap_pcs st) !! k; conns (cap_mem st) !! p.

Definition chunk_bytes (m : Memory) (c : Connection) : list (list byte) :=
  view (bytes m) <$> view (payloads m) (IncomingData c).

Definition flow_chunks (st : Capture) (k : ConnectionKey)
  : option (list (list byte)) :=
  chunk_bytes (cap_mem st) <$> flow_record st k.

(** What the specification expects of the flow table, in its words: the
    frames from the target, their 4-tuple, and per 4-tuple the non-empty
    payloads in capture order. *)
Definition frame_key (f : Frame) : option ConnectionKey :=
  match frame_ips f, f_tcp f with
  | Some (src, dst), Some t =>
      Some {| kSrcIP := IP_String src;
              kDstIP := IP_String dst;
              kSrcPort := h_SrcPort t;
              kDstPort := h_DstPort t |}
  | _, _ => None
  end.

Definition from_target (ip0 : string) (port16 : Z) (f : Frame) : bool :=
  match frame_ips f, f_tcp f with
  | Some (src, _), Some t =>
      bool_decide (IP_String src = ip0)
      && bool_decide (h_SrcPort t = port16)
  | _, _ => false
  end.

Definition feeds (ip0 : string) (port16 : Z) (k : ConnectionKey) (f : Frame)
  : bool :=
  from_target ip0 port16 f && bool_decide (frame_key f = Some k).

Definition spec_chunks (ip0 : string) (port16 : Z) (k : ConnectionKey)
  (fs : list Frame) : list (list byte) :=
  omap (fun f => if feeds ip0 port16 k f && bool_decide (f_body f ≠ [])
                 then Some (f_body f) else None) fs.

(** The backing array of a slice, if it has one. *)
Definition arr_of (s : slice) : option addr :=
  match s with SNil => None | SMk a _ _ _ => Some a end.

(** A chunk is owned by the flow table when it is a well-formed window on a
    byte array that is not one of the buffers of the capture library. *)
Definition owned (bs : heap byte) (bufs : list addr) (x : Payload) : Prop :=
  wf_slice bs x = true ∧ ∀ a, arr_of x = Some a → a ∉ bufs.

(** What holds of a capture at all times: every pointer in the flow table
    refers to a struct with the ports of the key it is filed under, and no
    two keys share a pointer; the chunk slice of a Flow Record is well formed
    and has a backing array of its own; every chunk is owned; and the
    buffers of the library are allocated. *)
Record capture_inv (st : Capture) : Prop := mkCaptureInv {
  table_valid : ∀ k p, connections (cap_pcs st) !! k = Some p →
    ∃ c, conns (cap_mem st) !! p = Some c ∧
         SrcPort c = kSrcPort k ∧ DstPort c = kDstPort k;
  table_inj : ∀ k1 k2 p,
    connections (cap_pcs st) !! k1 = Some p →
    connections (cap_pcs st) !! k2 = Some p → k1 = k2;
  chunks_wf : ∀ k c, flow_record st k = Some c →
    wf_slice (payloads (cap_mem st)) (IncomingData c) = true;
  chunks_apart : ∀ k1 k2 c1 c2 a,
    flow_record st k1 = Some c1 → flow_record st k2 = Some c2 →
    arr_of (IncomingData c1) = Some a → arr_of (IncomingData c2) = Some a →
    k1 = k2;
  chunks_owned : ∀ k c x, flow_record st k = Some c →
    x ∈ view (payloads (cap_mem st)) (IncomingData c) →
    owned (bytes (cap_mem st)) (cap_bufs st) x;
  bufs_allocated : ∀ a, a ∈ cap_bufs st → a < length (bytes (cap_mem st))
}.

(** The 4-tuple of a flow, and the key it is filed under. *)
Record Tuple := mkTuple {
  t_SrcIP : IP;
  t_DstIP : IP;
  t_SrcPort : Z;
  t_DstPort : Z
}.

Definition tuple_key (t : Tuple) : ConnectionKey :=
  {| kSrcIP := IP_String (t_SrcIP t);
     kDstIP := IP_String (t_DstIP t);
     kSrcPort := t_SrcPort t;
     kDstPort := t_DstPort t |}.

Definition frame_tuple (f : Frame) : option Tuple :=
  match frame_ips f, f_tcp f with
  | Some (src, dst), Some t =>
      Some {| t_SrcIP := src; t_DstIP := dst;
              t_SrcPort := h_SrcPort t; t_DstPort := h_DstPort t |}
  | _, _ => None
  end.

(** What a frame adds to the chunks of the flow with key [k]. *)
Definition spec_feed (ip0 : string) (port16 : Z) (k : ConnectionKey)
  (o : option (list (list byte))) (f : Frame) : option (list (list byte)) :=
  if feeds ip0 port16 k f
  then Some (default [] o ++ (if bool_decide (f_body f ≠ []) then [f_body f] else []))
  else o.

(** ** app.go *)

Record LoginServer := mkLoginServer {
  Name : string;
  srv_IP : string;
  srv_Port : Z;
  Pattern : list byte;
  IsNumberResponse : bool
}.

(** The fields of [App] that the capture control surface reads and writes;
    [packetCaptureService] points into the heap of services. *)
Record App := mkApp {
  isCapturing : bool;
  packetCaptureService : option addr;
  appVersion : string
}.

(** [func (a *App) StopCapture() bool]: the result, the [App], the services
    and what is printed. *)
Definition StopCapture (a : App) (svcs : list PacketCaptureService)
  : bool * App * list PacketCaptureService * list string :=
  let out := ["[StopCapture] entering ..."] in
  match packetCaptureService a with
  | Some p =>
      (true,
       {| isCapturing := false; packetCaptureService := None;
          appVersion := appVersion a |},
       alter pcs_StopCapture p svcs,
       out)
  | None =>
      (true, a, svcs, out ++ ["[StopCapture] No capture service to stop."])
  end.

(** The search of [StartCapture] for the target server: the first entry of
    [loginServers] with that name. *)
Fixpoint find_server (loginServers : list LoginServer) (name : string)
  : option LoginServer :=
  match loginServers with
  | [] => None
  | server :: rest =>
      if bool_decide (Name server = name) then Some server
      else find_server rest name
  end.

(** ** A capture session as a system of goroutines

    [StartCapture] starts one goroutine per usable interface
    ([StartCaptureAllInterfaces]) and then waits, in a [select], for a
    connection on the notification channel or for the cancellation of the
    session.  The devices of pcap, the test [IsValidInterface] and the
    decoder [ragnarok.ParsePayloadToCharacterServerInfo] are parameters.

    In a run of this model the calls of [handlePacket] take effect one at a
    time, in the order of the events: an interface goroutine reads a frame
    and handles it before another one does.  The code takes no lock around
    [handlePacket]; a schedule in which two interface goroutines are inside
    it at once is a data race on [pcs.connections] and on the records, for
    which Go defines no behaviour (the run time may end the process with
    its fatal error for concurrent map writes).  Such schedules are not runs
    of this model, and what is proved of every run is proved of the
    schedules without such a race. *)

Section Session.

Context {Device CharacterServerInfo : Type}.
Variable IsValidInterface : Device → bool.
(** The decoder, on the bytes of a chunk and the pattern; [None] is nil. *)
Variable ParsePayloadToCharacterServerInfo :
  list byte → list byte → option (list CharacterServerInfo).

(** Where an interface goroutine stands. *)
Inductive Goroutine :=
| GOpenLive                            (* about to call pcap.OpenLive *)
| GSetBPFFilter                        (* device open, filter not yet set *)
| GSelect                              (* at the select of the capture loop *)
| GSend (c : addr) (rest : list Effect) (* blocked in a channel send *)
| GReturned.                           (* returned; handle closed *)

(** Where [StartCapture] stands. *)
Inductive Consumer :=
| CWaiting                             (* at its select *)
| CReturned (result : option (list CharacterServerInfo)).

Record Session := mkSession {
  capture : Capture;
  pattern : list byte;
  goroutines : list Goroutine;
  consumer : Consumer;
  decoded : list (list byte);          (* chunks handed to the decoder *)
  stdout : list string
}.

(** [log.Fatal] prints and then calls [os.Exit(1)]: the process ends. *)
Inductive Process :=
| Running (s : Session)
| Exited (status : Z) (s : Session).

(** The body of the loop over the sorted chunks: decode each chunk on its
    own; stop at the first non-nil list.  Returns the chunks that were
    decoded and the list found, if any. *)
Fixpoint decode_chunks (bs : heap byte) (pat : list byte)
  (sortedIncomingData : list Payload)
  : list (list byte) * option (list CharacterServerInfo) :=
  match sortedIncomingData with
  | [] => ([], None)
  | data :: rest =>
      match ParsePayloadToCharacterServerInfo (view bs data) pat with
      | Some charServerInfoList => ([view bs data], Some charServerInfoList)
      | None =>
          let '(tried, r) := decode_chunks bs pat rest in
          (view bs data :: tried, r)
      end
  end.

(** [case connection := <-channel]: sort the chunks, decode them in turn.
    [None] is the panic of an invalid connection pointer. *)
Definition receive_connection (m : Memory) (pat : list byte) (c : addr)
  : option (Memory * list (list byte) * option (list CharacterServerInfo)) :=
  match GetIncomingDataSortedByLength m c with
  | None => None
  | Some (sortedIncomingData, m') =>
      let '(tried, r) :=
        decode_chunks (bytes m') pat (view (payloads m') sortedIncomingData) in
      Some (m', tried, r)
  end.

(** A goroutine performs the effects of a call in order; a send blocks it
    until the consumer receives. *)
Fixpoint perform (effs : list Effect) (out : list string)
  : Goroutine * list string :=
  match effs with
  | [] => (GSelect, out)
  | Print s :: rest => perform rest (out ++ [s])
  | Send c :: rest => (GSend c rest, out)
  end.

(** [StartCaptureAllInterfaces]: one goroutine per valid device; none when
    [pcap.FindAllDevs] fails ([None]). *)
Definition StartCaptureAllInterfaces (pcs : PacketCaptureService)
  (findAllDevs : option (list Device)) : list Goroutine * list string :=
  match findAllDevs with
  | None => ([], [])
  | Some devices =>
      ((fun _ => GOpenLive) <$> filter (fun d => IsValidInterface d = true) devices,
       ["[Network.StartCaptureAllInterfaces] build filter success: tcp and net "
        +:+ ip pcs +:+ " and port " +:+ pretty (port pcs)])
  end.

(** What the scheduler and the environment can make happen next. *)
Inductive Event :=
| EvOpenLive (i : nat) (ok : bool)     (* goroutine i: pcap.OpenLive returns *)
| EvSetBPFFilter (i : nat) (ok : bool) (* goroutine i: SetBPFFilter returns *)
| EvPacket (i : nat) (now : nat → Time) (f : Frame)
                                       (* goroutine i: select takes a packet *)
| EvDone (i : nat)                     (* goroutine i: select takes ctx.Done *)
| EvCancel                             (* someone calls pcs.StopCapture() *)
| EvReceive (i : nat)                  (* consumer receives what i sends *)
| EvConsumerDone.                      (* consumer: select takes ctx.Done *)

Definition set_goroutine (i : nat) (g : Goroutine) (s : Session) : Session :=
  {| capture := capture s; pattern := pattern s;
     goroutines := <[i := g]> (goroutines s); consumer := consumer s;
     decoded := decoded s; stdout := stdout s |}.

Definition print (lines : list string) (s : Session) : Session :=
  {| capture := capture s; pattern := pattern s;
     goroutines := goroutines s; consumer := consumer s;
     decoded := decoded s; stdout := stdout s ++ lines |}.

Definition print_all (out : list string) (s : Session) : Session :=
  {| capture := capture s; pattern := pattern s;
     goroutines := goroutines s; consumer := consumer s;
     decoded := decoded s; stdout := out |}.

Definition cancel (s : Session) : Session :=
  {| capture :=
       {| cap_pcs := pcs_StopCapture (cap_pcs (capture s));
          cap_mem := cap_mem (capture s);
          cap_bufs := cap_bufs (capture s) |};
     pattern := pattern s; goroutines := goroutines s;
     consumer := consumer s; decoded := decoded s; stdout := stdout s |}.

(** The body of [case connection := <-channel] in [StartCapture]: sort the
    chunks of the connection and decode them in turn; on a non-nil list call
    [packetCaptureService.StopCapture()] and return it, else go round the
    loop again.  [None] is the panic of an invalid connection pointer. *)
Definition consume (s : Session) (c : addr) : option Session :=
  match receive_connection (cap_mem (capture s)) (pattern s) c with
  | None => None
  | Some (m', tried, r) =>
      let s' :=
        {| capture :=
             {| cap_pcs := cap_pcs (capture s); cap_mem := m';
                cap_bufs := cap_bufs (capture s) |};
           pattern := pattern s;
           goroutines := goroutines s;
           consumer :=
             match r with
             | Some l => CReturned (Some l)
             | None => CWaiting
             end;
           decoded := decoded s ++ tried;
           stdout := stdout s |} in
      Some (match r with Some _ => cancel s' | None => s' end)
  end.

(** One step of a running session; [None] when the event cannot happen in
    this state.  [EvPacket] is a frame read and handled by one goroutine
    with no other goroutine inside [handlePacket] (see above). *)
Definition step (s : Session) (e : Event) : option Process :=
  match e with
  | EvOpenLive i ok =>
      match goroutines s !! i with
      | Some GOpenLive =>
          if ok then Some (Running (set_goroutine i GSetBPFFilter s))
          else Some (Exited 1
                 (print ["[Network.StartCaptureAllInterfaces] Unable to open network device:"] s))
      | _ => None
      end
  | EvSetBPFFilter i ok =>
      match goroutines s !! i with
      | Some GSetBPFFilter =>
          if ok
          then Some (Running (set_goroutine i GSelect
                 (print ["[Network.StartCaptureAllInterfaces] Start sniffing on interface"] s)))
          else Some (Exited 1
                 (print ["[Network.StartCaptureAllInterfaces] Unable to set filter:"] s))
      | _ => None
      end
  | EvPacket i now f =>
      match goroutines s !! i with
      | Some GSelect =>
          let '(cap', effs) := handle_frame (capture s) (now, f) in
          let '(g, out) := perform effs (stdout s) in
          Some (Running
                  {| capture := cap'; pattern := pattern s;
                     goroutines := <[i := g]> (goroutines s);
                     consumer := consumer s; decoded := decoded s;
                     stdout := out |})
      | _ => None
      end
  | EvDone i =>
      match goroutines s !! i with
      | Some GSelect =>
          if cancelled (cap_pcs (capture s))
          then Some (Running (set_goroutine i GReturned s))
          else None
      | _ => None
      end
  | EvCancel => Some (Running (cancel s))
  | EvReceive i =>
      match consumer s, goroutines s !! i with
      | CWaiting, Some (GSend c rest) =>
          let '(g, out) := perform rest (stdout s) in
          match consume s c with
          | None => Some (Exited 2 s)
          | Some s' => Some (Running (set_goroutine i g (print_all out s')))
          end
      | _, _ => None
      end
  | EvConsumerDone =>
      match consumer s with
      | CWaiting =>
          if cancelled (cap_pcs (capture s))
          then Some (Running
                 {| capture := capture s; pattern := pattern s;
                    goroutines := goroutines s; consumer := CReturned None;
                    decoded := decoded s; stdout := stdout s |})
          else None
      | CReturned _ => None
      end
  end.

(** A run: events that cannot happen are skipped, and nothing happens in a
    process that has exited. *)
Fixpoint run (p : Process) (es : list Event) : Process :=
  match es with
  | [] => p
  | e :: es' =>
      match p with
      | Exited _ _ => p
      | Running s =>
          match step s e with
          | Some p' => run p' es'
          | None => run p es'
          end
      end
  end.

(** [func (a *App) StartCapture(...)] up to its loop. *)
Inductive Started :=
| ReturnedNil (a : App) (svcs : list PacketCaptureService)
| NilDereference
| Capturing (a : App) (svcs : list PacketCaptureService) (s : Session).

Definition StartCapture_begin (loginServers : list LoginServer)
  (findAllDevs : option (list Device))
  (a : App) (svcs : list PacketCaptureService) (targetServerName : string)
  : Started :=
  let stopped :=
    if isCapturing a || bool_decide (is_Some (packetCaptureService a)) then
      match packetCaptureService a with
      | Some p =>
          Some ({| isCapturing := false; packetCaptureService := None;
                   appVersion := appVersion a |},
                alter pcs_StopCapture p svcs)
      | None => None
      end
    else Some (a, svcs) in
  match stopped with
  | None => NilDereference
  | Some (a1, svcs1) =>
      match find_server loginServers targetServerName with
      | None => ReturnedNil a1 svcs1
      | Some targetServer =>
          let pcs :=
            NewPacketCaptureService (srv_IP targetServer) (srv_Port targetServer) in
          let '(gs, out) := StartCaptureAllInterfaces pcs findAllDevs in
          Capturing
            {| isCapturing := true;
               packetCaptureService := Some (length svcs1);
               appVersion := appVersion a1 |}
            (svcs1 ++ [pcs])
            {| capture := {| cap_pcs := pcs; cap_mem := empty_memory;
                             cap_bufs := [] |};
               pattern := Pattern targetServer;
               goroutines := gs;
               consumer := CWaiting;
               decoded := [];
               stdout := out |}
      end
  end.

(** What [StartCapture] has returned, if it has. *)
Definition StartCapture_result (p : Process)
  : option (option (list CharacterServerInfo)) :=
  match p with
  | Running s | Exited _ s =>
      match consumer s with
      | CWaiting => None
      | CReturned r => Some r
      end
  end.

End Session.

(** [var loginServers] as app.go initialises it. *)
Definition loginServers_default : list LoginServer :=
  [ {| Name := "Taiwan"; srv_IP := "219.84.200.54"; srv_Port := 6900;
       Pattern := [xc0; xa8]; IsNumberResponse := true |};
    {| Name := "Taiwan - Zero"; srv_IP := "35.229.252.108"; srv_Port := 6900;
       Pattern := [xc0; xa8]; IsNumberResponse := false |} ].

(** A session in which nobody sends on the notification channel and
    [StartCapture] is waiting or has returned nil after a cancellation. *)
Definition never_notified {CharacterServerInfo : Type}
  (p : @Process CharacterServerInfo) : Prop :=
  match p with
  | Running s | Exited _ s =>
      (∀ i c rest, goroutines s !! i ≠ Some (GSend c rest)) ∧
      (consumer s = CWaiting ∨
       (consumer s = CReturned None ∧ cancelled (cap_pcs (capture s)) = true))
  end.

(** The flags of the TCP layer of a packet replaced. *)
Definition with_flags (fin rst : bool) (packet : Packet) : Packet :=
  {| ipv4Layer := ipv4Layer packet;
     tcpLayer :=
       (fun t => {| tcp_SrcPort := tcp_SrcPort t; tcp_DstPort := tcp_DstPort t;
                    tcp_FIN := fin; tcp_RST := rst;
                    tcp_Payload := tcp_Payload t |}) <$> tcpLayer packet |}.

(** ** The front end: rendering of a status code *)

(** The integers that a JavaScript number holds exactly
    ([Number.isSafeInteger]): those between -(2^53 - 1) and 2^53 - 1. *)
Definition safe_integer (n : Z) : Prop :=
  (- 9007199254740992 < n < 9007199254740992)%Z.

(** [mapPlayersToStatusText] of CharacterServerTable.tsx.  [players] is a
    JavaScript number; the model is of the function on the safe integers,
    which the template literal prints as their decimal digits, with a minus
    sign when negative.  This definition says nothing about other numbers
    (fractions, NaN, integers that a number cannot hold exactly or prints
    with an exponent), and the statements below are made for
    [safe_integer] codes only. *)
Definition mapPlayersToStatusText (players : Z) : string :=
  match players with
  | 1%Z => "順暢"
  | 2%Z => "擁擠"
  | 3%Z => "爆滿"
  | _ => "Unknown (" +:+ pretty players +:+ ")"
  end.

(** ** Concrete inputs used to exercise the statements below *)

(** The headers of a reply of the Taiwan server, 219.84.200.54, to
    192.168.1.5: 14 bytes of Ethernet, 20 of IPv4 with the two addresses in
    its last eight, 20 of TCP. *)
Definition reply_header : list byte :=
  replicate 26 x00 ++ [xdb; x54; xc8; x36; xc0; xa8; x01; x05]
  ++ replicate 20 x00.

(** Three chunks of lengths 1, 1 and 2, held by one connection whose
    addresses are those of a reply in byte array 3. *)
Definition conn_ties : Connection :=
  {| SrcIP := mkIPSlice 3 26; DstIP := mkIPSlice 3 30;
     SrcPort := 6900%Z; DstPort := 50000%Z; StartTime := 10%Z;
     LastSeen := 12%Z;
     IncomingData := SMk 0 0 3 4; IsFinished := false |}.

Definition mem_ties : Memory :=
  {| bytes := [[x01]; [x02]; [x03; x04]; reply_header];
     payloads := [[SMk 0 0 1 1; SMk 1 0 1 1; SMk 2 0 2 2; SNil]];
     conns := [conn_ties] |}.

(** Chunks of lengths 10, 50, 3 and 50, as in the specification; chunk [i]
    is a window of length [n] on byte array [i]. *)
Definition chunk (i n : nat) : Payload := SMk i 0 n n.

Definition conn_spec_example : Connection :=
  {| SrcIP := mkIPSlice 4 26; DstIP := mkIPSlice 4 30;
     SrcPort := 6900%Z; DstPort := 50000%Z; StartTime := 10%Z;
     LastSeen := 12%Z;
     IncomingData := SMk 0 0 4 4; IsFinished := false |}.

Definition mem_spec_example : Memory :=
  {| bytes := [replicate 10 x00; replicate 50 x01; replicate 3 x02;
               replicate 50 x03; reply_header];
     payloads := [[chunk 0 10; chunk 1 50; chunk 2 3; chunk 3 50]];
     conns := [conn_spec_example] |}.

(** A service watching 219.84.200.54:6900 and a frame from another port,
    decoded in byte array 3 of [mem_ties]. *)
Definition pcs_taiwan : PacketCaptureService :=
  NewPacketCaptureService "219.84.200.54" 6900.

Definition packet_other_port : Packet :=
  {| ipv4Layer := Some {| ip_SrcIP := mkIPSlice 3 26;
                          ip_DstIP := mkIPSlice 3 30 |};
     tcpLayer := Some {| tcp_SrcPort := 443; tcp_DstPort := 50000;
                         tcp_FIN := false; tcp_RST := false;
                         tcp_Payload := SMk 0 0 1 1 |} |}.

Definition app_capturing : App :=
  {| isCapturing := true; packetCaptureService := Some 0;
     appVersion := "1.0.0" |}.

(** A decoder for the examples: a chunk decodes when it starts with the
    pattern, to the number of bytes that follow it. *)
Definition toy_decoder (data pat : list byte) : option (list nat) :=
  if bool_decide (take (length pat) data = pat)
  then Some [length data - length pat] else None.

(** A session whose memory is [mem_spec_example], with the consumer waiting. *)
Definition session_delivering : @Session nat :=
  {| capture := {| cap_pcs := pcs_taiwan; cap_mem := mem_spec_example;
                   cap_bufs := [] |};
     pattern := [x03; x03];
     goroutines := [GSelect];
     consumer := CWaiting;
     decoded := [];
     stdout := [] |}.

(** An idle App, two usable interfaces, and a reply of the Taiwan server
    to 192.168.1.5:50000 carrying [body]. *)
Definition app_idle : App :=
  {| isCapturing := false; packetCaptureService := None;
     appVersion := "1.0.0" |}.

Definition two_devices : option (list string) := Some ["eth0"; "wlan0"].

Definition reply (body : list byte) : Frame :=
  {| f_reuse := None;
     f_header := reply_header;
     f_body := body;
     f_ipv4 := Some 14;
     f_tcp := Some {| h_SrcPort := 6900; h_DstPort := 50000;
                      h_FIN := false; h_RST := false |} |}.

Definition reply_tuple : Tuple :=
  {| t_SrcIP := mkIP xdb x54 xc8 x36; t_DstIP := mkIP xc0 xa8 x01 x05;
     t_SrcPort := 6900; t_DstPort := 50000 |}.

Definition reply_key : ConnectionKey :=
  {| kSrcIP := "219.84.200.54"; kDstIP := "192.168.1.5";
     kSrcPort := 6900; kDstPort := 50000 |}.

(** A first reply already handled, and a reply to another peer port. *)
Definition one_reply_handled : list ((nat → Time) * Frame) :=
  [(λ _, 1%Z, reply [x01])].

Definition reply_to_other_peer : Frame :=
  {| f_reuse := Some 0;
     f_header := reply_header;
     f_body := [x07; x08];
     f_ipv4 := Some 14;
     f_tcp := Some {| h_SrcPort := 6900; h_DstPort := 50001;
                      h_FIN := true; h_RST := false |} |}.



(** ** app.go: merging the custom servers at start-up *)

(** The inner loop of [startup]: the index of the first entry of
    [loginServers] with the given name ([ptr = &loginServers[i]; break]). *)
Fixpoint server_index (loginServers : list LoginServer) (name : string)
  : option nat :=
  match loginServers with
  | [] => None
  | server :: rest =>
      if bool_decide (name = Name server) then Some 0
      else S <$> server_index rest name
  end.

(** The body of the outer loop: overwrite the entry found, else append. *)
Definition merge_server (loginServers : list LoginServer)
  (customServer : LoginServer) : list LoginServer :=
  match server_index loginServers (Name customServer) with
  | Some i => <[i := customServer]> loginServers
  | None => loginServers ++ [customServer]
  end.

(** [func (a *App) startup(ctx)], as far as [loginServers] goes.  [loaded] is
    what [config.LoadCustomServersFromXML] returns: [None] for an error. *)
Definition startup (loginServers : list LoginServer)
  (loaded : option (list LoginServer)) : list LoginServer :=
  match loaded with
  | None => loginServers
  | Some customServers =>
      if length customServers =? 0 then loginServers
      else foldl merge_server loginServers customServers
  end.

(** ** frontend/src/App.tsx: choosing the server *)

(** [handleServerChange]: [servers.find] by name; an unknown name leaves the
    selection as it is.  [None] is no selection. *)
Definition handleServerChange (servers : list LoginServer)
  (selectedServer : option LoginServer) (serverName : string)
  : option LoginServer :=
  match List.find (fun server => bool_decide (Name server = serverName)) servers with
  | None => selectedServer
  | Some nextSelectedServer => Some nextSelectedServer
  end.

(** The selection after the list has been fetched ([servers[0]]) and the
    user has picked the given names in turn. *)
Definition selected_after (servers : list LoginServer) (names : list string)
  : option LoginServer :=
  foldl (handleServerChange servers) (head servers) names.

Definition korea_server : LoginServer :=
  {| Name := "Korea"; srv_IP := "112.175.128.137"; srv_Port := 6900;
     Pattern := [xc0; xa8]; IsNumberResponse := true |}.

(** A custom list that overrides Taiwan twice and adds a server. *)
Definition custom_servers : list LoginServer :=
  [ {| Name := "Taiwan"; srv_IP := "10.0.0.1"; srv_Port := 6900;
       Pattern := [xc0; xa8]; IsNumberResponse := true |};
    korea_server;
    {| Name := "Taiwan"; srv_IP := "10.0.0.2"; srv_Port := 6901;
       Pattern := [x01]; IsNumberResponse := false |} ].

(** ** app.go: the capture control surface under any sequence of calls *)

(** [func NewApp() *App]: the zero value. *)
Definition NewApp : App :=
  {| isCapturing := false; packetCaptureService := None; appVersion := "" |}.

Section Calls.

Context {Device CharacterServerInfo : Type}.
Variable IsValidInterface : Device → bool.
Variable loginServers : list LoginServer.

(** A call of the front end, with what [pcap.FindAllDevs] answers during it. *)
Inductive Call :=
| CallStopCapture
| CallStartCapture (targetServerName : string)
    (findAllDevs : option (list Device)).

(** The [App] and the services after a call; [None] once a call has
    panicked.  Calls take effect one at a time; a [StartCapture] takes
    effect when it reaches its loop or returns before it. *)
Definition call (st : option (App * list PacketCaptureService)) (c : Call)
  : option (App * list PacketCaptureService) :=
  match st with
  | None => None
  | Some (a, svcs) =>
      match c with
      | CallStopCapture =>
          let '(_, a', svcs', _) := StopCapture a svcs in Some (a', svcs')
      | CallStartCapture targetServerName findAllDevs =>
          match StartCapture_begin (CharacterServerInfo := CharacterServerInfo)
                  IsValidInterface loginServers findAllDevs a svcs
                  targetServerName with
          | ReturnedNil a' svcs' => Some (a', svcs')
          | NilDereference => None
          | Capturing a' svcs' _ => Some (a', svcs')
          end
      end
  end.

(** A call that starts no capture: [StopCapture], or [StartCapture] with a
    name that no server has. *)
Definition only_stops (c : Call) : bool :=
  match c with
  | CallStopCapture => true
  | CallStartCapture targetServerName _ =>
      bool_decide (find_server loginServers targetServerName = None)
  end.

End Calls.

Arguments Call : clear implicits.
Arguments call {Device} CharacterServerInfo IsValidInterface loginServers st c.

(** What holds of the [App] between calls: the flag is set exactly when
    there is a service, the service pointer is valid, and a service whose
    context is not cancelled is the one the [App] points to. *)
Definition app_consistent (a : App) (svcs : list PacketCaptureService) : Prop :=
  (isCapturing a = true ↔ is_Some (packetCaptureService a)) ∧
  (∀ p, packetCaptureService a = Some p → p < length svcs) ∧
  (∀ i pcs, svcs !! i = Some pcs → cancelled pcs = false →
            packetCaptureService a = Some i).

(** No capture is live: the [App] holds no service and every service is
    cancelled. *)
Definition app_stopped (a : App) (svcs : list PacketCaptureService) : Prop :=
  isCapturing a = false ∧ packetCaptureService a = None ∧
  Forall (λ pcs, cancelled pcs = true) svcs.

(** Chunks of lengths 2, 5 and 3 in one array of chunk headers; the first
    connection holds all three, the second the window on the last two. *)
Definition mem_windows : Memory :=
  {| bytes := [replicate 2 x00; replicate 5 x01; replicate 3 x02;
               reply_header];
     payloads := [[chunk 0 2; chunk 1 5; chunk 2 3]];
     conns := [set_IncomingData (SMk 0 0 3 3) conn_ties;
               set_IncomingData (SMk 0 1 2 2) conn_ties] |}.

(** The start and last-activity times of the Flow Record filed under a key. *)
Definition flow_times (st : Capture) (k : ConnectionKey) : option (Time * Time) :=
  (fun c => (StartTime c, LastSeen c)) <$> flow_record st k.

(** What a frame does to the times of the flow with key [k]: the first frame
    of the flow reads the clock three times (start, last activity, last
    activity again), a later one once. *)
Definition spec_times (ip0 : string) (port16 : Z) (k : ConnectionKey)
  (o : option (Time * Time)) (ev : (nat → Time) * Frame) : option (Time * Time) :=
  if feeds ip0 port16 k ev.2
  then Some (match o with
             | Some (start, _) => (start, ev.1 0)
             | None => (ev.1 0, ev.1 2)
             end)
  else o.

(** The address slices of every Flow Record lie within allocated arrays. *)
Definition addresses_in_range (st : Capture) : Prop :=
  ∀ k c, flow_record st k = Some c →
    in_range (bytes (cap_mem st)) (SrcIP c) ∧
    in_range (bytes (cap_mem st)) (DstIP c).

(** Every Flow Record shows, through its address slices, the key it is
    filed under. *)
Definition shows_key (st : Capture) : Prop :=
  ∀ k c, flow_record st k = Some c → Key (bytes (cap_mem st)) c = k.

(** Two replies of the Taiwan server, with clocks that start at 100 and at
    200 and advance by one at each reading. *)
Definition two_replies : list ((nat → Time) * Frame) :=
  [(λ n, (100 + Z.of_nat n)%Z, reply [x01]);
   (λ n, (200 + Z.of_nat n)%Z, reply [])].

(** ** Runs of a session: when StartCapture returns *)

(** The session a process is in, running or not. *)
Definition session_of {CharacterServerInfo : Type}
  (p : @Process CharacterServerInfo) : Session :=
  match p with Running s | Exited _ s => s end.

Definition is_cancel (e : Event) : bool :=
  match e with EvCancel => true | _ => false end.

(** Both interfaces come up, a reply is captured, and both goroutines and
    the consumer look at the context, which nobody has cancelled. *)
Definition uncancelled_run : list Event :=
  [EvOpenLive 0 true; EvOpenLive 1 true; EvSetBPFFilter 1 true;
   EvPacket 1 (λ _, 5%Z) (reply [xc0; xa8; x01]);
   EvDone 1; EvConsumerDone; EvSetBPFFilter 0 true; EvDone 0;
   EvConsumerDone].

(** The candidates of a flow as the consumer decodes them: the bytes of the
    chunks in the order of the returned slice. *)
Definition candidates (rm : slice * Memory) : list (list byte) :=
  view (bytes rm.2) <$> view (payloads rm.2) rm.1.

(** Three replies of one flow, with payloads of 1, 1 and 2 bytes. *)
Definition three_replies : list ((nat → Time) * Frame) :=
  [(λ _, 1%Z, reply [x01]); (λ _, 2%Z, reply [x02]);
   (λ _, 3%Z, reply [x03; x04])].

(** * Properties *)

(** ** Lists updated in place *)

Lemma list_alter_lookup {B} (f : B → B) (l : list B) i x :
  l !! i = Some x → alter f i l = <[i := f x]> l.
Proof.
  intros Hi. apply list_eq. intros k.
  destruct (decide (k = i)) as [->|].
  - rewrite list_lookup_alter_eq, Hi, list_lookup_insert_eq; [done|].
    eauto using lookup_lt_Some.
  - by rewrite list_lookup_alter_ne, list_lookup_insert_ne.
Qed.

Lemma alter_app_last {B} (f : B → B) (l : list B) x :
  alter f (length l) (l ++ [x]) = l ++ [f x].
Proof.
  replace (length l) with (length l + 0) by lia. by rewrite alter_app_r.
Qed.

(** ** Slices and heaps *)

Section HeapFacts.

Context {A : Type}.
Implicit Types (h : heap A) (l : list A).

Lemma view_whole h a l n c :
  h !! a = Some l → length l = n → view h (SMk a 0 n c) = l.
Proof.
  intros Ha Hn. unfold view, array. rewrite Ha. simpl.
  rewrite drop_0. apply take_ge. lia.
Qed.

Lemma store_whole h a l n c i x :
  h !! a = Some l → i < n →
  store h (SMk a 0 n c) i x = <[a := <[i := x]> l]> h.
Proof.
  intros Ha Hi. unfold store.
  destruct (Nat.ltb_spec i n); [|lia].
  by rewrite (list_alter_lookup _ _ _ l).
Qed.

Lemma array_app_old h h' a : a < length h → array (h ++ h') a = array h a.
Proof. intros. unfold array. by rewrite lookup_app_l. Qed.

Lemma view_app_old h h' s :
  wf_slice h s = true → view (h ++ h') s = view h s.
Proof.
  destruct s as [|a off n c]; [done|]. simpl.
  rewrite !andb_true_iff, !bool_decide_eq_true. intros [[? ?] ?].
  by rewrite array_app_old.
Qed.

Lemma view_length h s : wf_slice h s = true → length (view h s) = len s.
Proof.
  destruct s as [|a off n c]; [done|]. simpl.
  rewrite !andb_true_iff, !bool_decide_eq_true. intros [[? ?] ?].
  rewrite length_take, length_drop. lia.
Qed.

End HeapFacts.

Section AppendFacts.

Context {A : Type}.
Implicit Types (h : heap A) (l : list A) (s t : slice).

Lemma wf_slice_spec h s :
  wf_slice h s = true ↔
  match s with
  | SNil => True
  | SMk a off n c =>
      ∃ arr, h !! a = Some arr ∧ n ≤ c ∧ off + c ≤ length arr
  end.
Proof.
  destruct s as [|a off n c]; simpl; [done|].
  rewrite !andb_true_iff, !bool_decide_eq_true. unfold array. split.
  - intros [[Ha ?] ?]. apply lookup_lt_is_Some in Ha as [arr Harr].
    exists arr. by rewrite Harr in *.
  - intros (arr & Harr & ? & ?). rewrite Harr. simpl.
    split_and!; eauto using lookup_lt_Some.
Qed.

Lemma wf_slice_app h h' s : wf_slice h s = true → wf_slice (h ++ h') s = true.
Proof.
  rewrite !wf_slice_spec. destruct s as [|a off n c]; [done|].
  intros (arr & Harr & ? & ?). exists arr.
  split_and!; try done. rewrite lookup_app_l; eauto using lookup_lt_Some.
Qed.

Lemma wf_slice_arr_lt h s a :
  wf_slice h s = true → arr_of s = Some a → a < length h.
Proof.
  rewrite wf_slice_spec. destruct s; [done|].
  intros (arr & Harr & _) [= ->]. eauto using lookup_lt_Some.
Qed.

(** Replacing an array by one of the same length keeps slices well formed,
    and keeps what slices on other arrays show. *)
Lemma wf_slice_insert h a arr arr' s :
  h !! a = Some arr → length arr' = length arr →
  wf_slice h s = true → wf_slice (<[a := arr']> h) s = true.
Proof.
  intros Ha Hlen. rewrite !wf_slice_spec. destruct s as [|b off n c]; [done|].
  intros (arr0 & Harr0 & ? & ?).
  destruct (decide (a = b)) as [->|].
  - exists arr'. rewrite list_lookup_insert_eq by eauto using lookup_lt_Some.
    simplify_eq. split_and!; [done|done|lia].
  - exists arr0. by rewrite list_lookup_insert_ne.
Qed.

Lemma view_insert_ne h a arr' s :
  arr_of s ≠ Some a → view (<[a := arr']> h) s = view h s.
Proof.
  destruct s as [|b off n c]; [done|]. simpl. intros Hne.
  unfold array. rewrite list_lookup_insert_ne; [done|]. congruence.
Qed.

Lemma wf_slice_insert_ne h a arr' s :
  arr_of s ≠ Some a → wf_slice h s = true →
  wf_slice (<[a := arr']> h) s = true.
Proof.
  rewrite !wf_slice_spec. destruct s as [|b off n c]; [done|].
  intros Hne (arr0 & Harr0 & ? & ?). exists arr0.
  rewrite list_lookup_insert_ne; [done|]. simpl in Hne. congruence.
Qed.

Lemma copy_fresh h n src (zero : A) :
  wf_slice h src = true → len src = n →
  copy (h ++ [replicate n zero]) (SMk (length h) 0 n n) src
  = h ++ [view h src].
Proof.
  intros Hwf Hn. unfold copy.
  rewrite view_app_old, Hn, Nat.min_id by done.
  rewrite take_ge by (rewrite view_length by done; lia).
  replace (length h) with (length h + 0) by lia.
  rewrite alter_app_r. cbn [alter list_alter].
  rewrite <-(app_nil_r (replicate n zero)), list_inserts_0_r, app_nil_r;
    [done|].
  rewrite length_replicate, view_length by done. lia.
Qed.

Lemma growcap_ge (oldcap needed : nat) : needed ≤ growcap oldcap needed.
Proof. unfold growcap. repeat case_match; lia. Qed.

Lemma append_spec (zero : A) h s x s' h' :
  wf_slice h s = true →
  append zero h s x = (s', h') →
  view h' s' = view h s ++ [x] ∧
  wf_slice h' s' = true ∧
  len s' = S (len s) ∧
  (∃ a', arr_of s' = Some a' ∧ (arr_of s = Some a' ∨ a' = length h)) ∧
  (∀ t, wf_slice h t = true → wf_slice h' t = true) ∧
  (∀ t, wf_slice h t = true → arr_of t ≠ arr_of s' → view h' t = view h t).
Proof.
  intros Hwf. pose proof Hwf as Hwf'. rewrite wf_slice_spec in Hwf'.
  unfold append. destruct s as [|a off n c].
  - intros [= <- <-]. pose proof (growcap_ge 0 1).
    split_and!.
    + unfold view, array. by rewrite list_lookup_middle.
    + apply wf_slice_spec. eexists. rewrite list_lookup_middle by done.
      split_and!; [done|lia|]. change (growcap 0 1) with 1. simpl. lia.
    + done.
    + eexists. split; [done|by right].
    + intros t. apply wf_slice_app.
    + intros t Ht _. by apply view_app_old.
  - destruct Hwf' as (arr & Harr & Hnc & Hoff).
    destruct (Nat.ltb_spec n c) as [Hlt|Hge].
    + intros [= <- <-].
      rewrite (list_alter_lookup _ _ _ arr) by done.
      assert (a < length h) by eauto using lookup_lt_Some.
      split_and!.
      * unfold view, array. rewrite list_lookup_insert_eq, Harr by done. simpl.
        rewrite drop_insert_ge by lia.
        replace (off + n - off) with n by lia.
        rewrite (take_S_r _ _ x).
        -- by rewrite take_insert_ge by lia.
        -- rewrite list_lookup_insert_eq; [done|]. rewrite length_drop. lia.
      * apply wf_slice_spec. eexists.
        rewrite list_lookup_insert_eq by done.
        split_and!; [done|lia|]. rewrite length_insert. lia.
      * done.
      * eexists. split; [done|by left].
      * intros t. apply (wf_slice_insert _ _ arr); [done|].
        by rewrite length_insert.
      * intros t _ Hne. by apply view_insert_ne.
    + intros [= <- <-]. pose proof (growcap_ge c (S n)).
      assert (length (view h (SMk a off n c)) = n) as Hlen
          by (by rewrite view_length).
      split_and!.
      * unfold view at 1, array. rewrite list_lookup_middle by done.
        cbn [default]. rewrite drop_0.
        rewrite cons_middle, (assoc_L (++)).
        apply take_app_length'. rewrite length_app, Hlen. simpl. lia.
      * apply wf_slice_spec. eexists. rewrite list_lookup_middle by done.
        split_and!; [done|lia|].
        rewrite length_app, length_cons, length_replicate. unfold view in Hlen. lia.
      * done.
      * eexists. split; [done|by right].
      * intros t. apply wf_slice_app.
      * intros t Ht _. by apply view_app_old.
Qed.

End AppendFacts.

(** ** Candidate ordering *)

Section SortList.

Implicit Types l : list Payload.

Lemma cswap_length l i j : length (cswap l i j) = length l.
Proof.
  unfold cswap. repeat case_match; by rewrite ?length_insert.
Qed.

Lemma cswap_perm l i j : cswap l i j ≡ₚ l.
Proof.
  unfold cswap. repeat case_match; try done.
  by apply Permutation_insert_swap.
Qed.

Lemma cswap_inv l i j :
  i < j → prefix_max i l → head_max i j l →
  prefix_max i (cswap l i j) ∧ head_max i (S j) (cswap l i j).
Proof.
  intros Hij Hpre Hhead. unfold cswap.
  destruct (l !! i) as [x|] eqn:Hi; last first.
  { split; [done|]. intros q x y _ Hx. congruence. }
  destruct (l !! j) as [y|] eqn:Hj; last first.
  { split; [done|]. intros q x' y' Hq Hx Hy.
    destruct (decide (q = j)) as [->|]; [congruence|].
    eapply Hhead; [|done..]. lia. }
  assert (i < length l) by eauto using lookup_lt_Some.
  assert (j < length l) by eauto using lookup_lt_Some.
  destruct (Nat.ltb_spec (len x) (len y)) as [Hlt|Hge].
  - split.
    + intros p q x' y' Hp Hpq.
      rewrite !list_lookup_insert_ne by lia. intros Hx'.
      destruct (decide (q = j)) as [->|].
      { rewrite list_lookup_insert_eq by (rewrite length_insert; lia).
        intros [= <-]. eapply (Hpre p i); [lia|lia|done..]. }
      rewrite list_lookup_insert_ne by done.
      destruct (decide (q = i)) as [->|].
      { rewrite list_lookup_insert_eq by lia.
        intros [= <-]. eapply (Hpre p j); [lia|lia|done..]. }
      rewrite list_lookup_insert_ne by done. intros Hy'. by eapply (Hpre p q).
    + intros q x' y' Hq.
      rewrite list_lookup_insert_ne, list_lookup_insert_eq by lia.
      intros [= <-].
      destruct (decide (q = j)) as [->|].
      { rewrite list_lookup_insert_eq by (rewrite length_insert; lia).
        intros [= <-]. lia. }
      rewrite !list_lookup_insert_ne by lia. intros Hy'.
      etrans; [eapply (Hhead q x y'); [lia|done..]|lia].
  - split; [done|]. intros q x' y' Hq Hx' Hy'.
    destruct (decide (q = j)) as [->|]; [by simplify_eq|].
    eapply Hhead; [|done..]. lia.
Qed.

Lemma inner_list_length k i j l : length (inner_list k i j l) = length l.
Proof.
  revert j l. induction k as [|k IH]; intros j l; simpl; [done|].
  by rewrite IH, cswap_length.
Qed.

Lemma inner_list_perm k i j l : inner_list k i j l ≡ₚ l.
Proof.
  revert j l. induction k as [|k IH]; intros j l; simpl; [done|].
  by rewrite IH, cswap_perm.
Qed.

Lemma inner_list_inv k i j l :
  i < j → prefix_max i l → head_max i j l →
  prefix_max i (inner_list k i j l) ∧ head_max i (j + k) (inner_list k i j l).
Proof.
  revert j l. induction k as [|k IH]; intros j l Hij Hpre Hhead; simpl.
  - by rewrite Nat.add_0_r.
  - destruct (cswap_inv l i j) as [Hpre' Hhead']; [done..|].
    replace (j + S k) with (S j + k) by lia. apply IH; [lia|done..].
Qed.

Lemma inner_list_prefix_max i l :
  prefix_max i l →
  prefix_max (S i) (inner_list (length l - S i) i (S i) l).
Proof.
  intros Hpre.
  destruct (inner_list_inv (length l - S i) i (S i) l) as [Hpre' Hhead'];
    [lia|done|intros q x y ?; lia|].
  intros p q x y Hp Hpq Hx Hy.
  destruct (decide (p = i)) as [->|]; [|eapply Hpre'; [|done..]; lia].
  eapply Hhead'; [|done..].
  apply lookup_lt_Some in Hy. rewrite inner_list_length in Hy. lia.
Qed.

Lemma outer_list_length k i l : length (outer_list k i l) = length l.
Proof.
  revert i l. induction k as [|k IH]; intros i l; simpl; [done|].
  by rewrite IH, inner_list_length.
Qed.

Lemma outer_list_perm k i l : outer_list k i l ≡ₚ l.
Proof.
  revert i l. induction k as [|k IH]; intros i l; simpl; [done|].
  by rewrite IH, inner_list_perm.
Qed.

Lemma outer_list_inv k i l :
  prefix_max i l → prefix_max (i + k) (outer_list k i l).
Proof.
  revert i l. induction k as [|k IH]; intros i l Hpre; simpl.
  - by rewrite Nat.add_0_r.
  - replace (i + S k) with (S i + k) by lia.
    by apply IH, inner_list_prefix_max.
Qed.

Lemma prefix_max_sorted l :
  prefix_max (length l - 1) l → StronglySorted longer_eq l.
Proof.
  induction l as [|x l IH]; intros Hpre; [constructor|].
  apply StronglySorted_cons. split.
  - apply Forall_forall. intros y [q Hq]%list_elem_of_lookup.
    assert (q < length l) by eauto using lookup_lt_Some.
    eapply (Hpre 0 (S q)); simpl; [lia|lia|done..].
  - apply IH. intros p q x' y' Hp Hpq Hx' Hy'.
    eapply (Hpre (S p) (S q)); simpl in *; [lia|lia|done..].
Qed.

Lemma sort_list_length l : length (sort_list l) = length l.
Proof. apply outer_list_length. Qed.

Lemma sort_list_perm l : sort_list l ≡ₚ l.
Proof. apply outer_list_perm. Qed.

Lemma sort_list_sorted l : StronglySorted longer_eq (sort_list l).
Proof.
  apply prefix_max_sorted. rewrite sort_list_length.
  apply (outer_list_inv (length l - 1) 0 l). intros p q x y Hp. lia.
Qed.

End SortList.

(** *** The heap-level loops act on the array they sort *)

Section SortHeap.

Implicit Types (h : heap Payload) (l : list Payload).

Lemma compare_swap_whole h a l n i j :
  h !! a = Some l → length l = n →
  compare_swap h (SMk a 0 n n) i j = <[a := cswap l i j]> h.
Proof.
  intros Ha Hn. unfold compare_swap, index, cswap.
  rewrite (view_whole h a l) by done.
  destruct (l !! i) as [x|] eqn:Hi; [|by rewrite list_insert_id].
  destruct (l !! j) as [y|] eqn:Hj; [|by rewrite list_insert_id].
  case_match; [|by rewrite list_insert_id].
  apply lookup_lt_Some in Hi, Hj.
  rewrite (store_whole h a l) by (done || lia).
  rewrite (store_whole _ a (<[i:=y]> l)); [| |lia].
  - by rewrite list_insert_insert_eq.
  - apply list_lookup_insert_eq. eauto using lookup_lt_Some.
Qed.

Lemma inner_loop_whole k h a l n i j :
  h !! a = Some l → length l = n →
  inner_loop k i j h (SMk a 0 n n) = <[a := inner_list k i j l]> h.
Proof.
  revert j h l. induction k as [|k IH]; intros j h l Ha Hn; simpl.
  - by rewrite list_insert_id.
  - rewrite (compare_swap_whole h a l) by done.
    rewrite (IH _ _ (cswap l i j)).
    + by rewrite list_insert_insert_eq.
    + apply list_lookup_insert_eq. eauto using lookup_lt_Some.
    + by rewrite cswap_length.
Qed.

Lemma outer_loop_whole k h a l n i :
  h !! a = Some l → length l = n →
  outer_loop k i h (SMk a 0 n n) = <[a := outer_list k i l]> h.
Proof.
  revert i h l. induction k as [|k IH]; intros i h l Ha Hn; simpl.
  - by rewrite list_insert_id.
  - rewrite (inner_loop_whole _ h a l) by done.
    rewrite (IH _ _ (inner_list (n - S i) i (S i) l)).
    + rewrite list_insert_insert_eq. by rewrite Hn.
    + apply list_lookup_insert_eq. eauto using lookup_lt_Some.
    + by rewrite inner_list_length.
Qed.

(** What the call computes: nothing for an empty chunk slice, else one new
    array holding the sorted chunk headers. *)
Lemma GetIncomingDataSortedByLength_eq m c conn :
  conns m !! c = Some conn →
  wf_slice (payloads m) (IncomingData conn) = true →
  GetIncomingDataSortedByLength m c =
    Some (if len (IncomingData conn) =? 0 then (SNil, m)
          else
            let n := len (IncomingData conn) in
            (SMk (length (payloads m)) 0 n n,
             {| bytes := bytes m;
                payloads := payloads m ++
                  [sort_list (view (payloads m) (IncomingData conn))];
                conns := conns m |})).
Proof.
  intros Hc Hwf. unfold GetIncomingDataSortedByLength. rewrite Hc.
  destruct (Nat.eqb_spec (len (IncomingData conn)) 0) as [|Hn]; [done|].
  set (n := len (IncomingData conn)) in *.
  set (h := payloads m) in *.
  set (v := view h (IncomingData conn)).
  assert (length v = n) as Hv by (by apply view_length).
  unfold make, copy. cbn [len].
  rewrite view_app_old by done. fold v. fold n.
  rewrite Nat.min_id, (take_ge v) by lia.
  replace (length h) with (length h + 0) at 2 by lia.
  rewrite alter_app_r. cbn [alter list_alter].
  rewrite <-(app_nil_r (replicate n SNil)), list_inserts_0_r, app_nil_r
    by (by rewrite length_replicate).
  rewrite (outer_loop_whole _ _ _ v) by (by rewrite ?list_lookup_middle).
  replace (length h) with (length h + 0) at 2 by lia.
  rewrite insert_app_r. cbn. unfold sort_list. by rewrite Hv.
Qed.

End SortHeap.


(** C1 (as stated, refuted): the ordering is not stable.  For chunks of
    lengths 1, 1 and 2 the call returns the chunk of length 2 and then the
    two chunks of length 1 in reverse insertion order, where the stable
    descending sort of the specification keeps them in insertion order. *)
Lemma GetIncomingDataSortedByLength_not_stable :
  (λ rm, view (payloads rm.2) rm.1) <$> GetIncomingDataSortedByLength mem_ties 0
    = Some [chunk 2 2; chunk 1 1; chunk 0 1]
  ∧ spec_stable_sort_desc (view (payloads mem_ties) (IncomingData conn_ties))
    = [chunk 2 2; chunk 0 1; chunk 1 1]
  ∧ (λ rm, view (payloads rm.2) rm.1) <$> GetIncomingDataSortedByLength mem_ties 0
    ≠ Some (spec_stable_sort_desc
              (view (payloads mem_ties) (IncomingData conn_ties))).
Proof. by vm_compute. Qed.

(** C1 (amended): for every list of payload chunks of a Connection,
    GetIncomingDataSortedByLength returns a rearrangement of the chunks that
    is sorted in descending order by byte length; nothing is promised about
    the relative order of chunks of equal length. *)
Theorem GetIncomingDataSortedByLength_sorted m c conn :
  conns m !! c = Some conn →
  wf_slice (payloads m) (IncomingData conn) = true →
  ∃ r m',
    GetIncomingDataSortedByLength m c = Some (r, m') ∧
    view (payloads m') r ≡ₚ view (payloads m) (IncomingData conn) ∧
    StronglySorted longer_eq (view (payloads m') r).
Proof.
  intros Hc Hwf. rewrite (GetIncomingDataSortedByLength_eq m c conn) by done.
  destruct (Nat.eqb_spec (len (IncomingData conn)) 0) as [Hn|Hn].
  - exists SNil, m. split; [done|].
    apply view_length in Hwf. rewrite Hn in Hwf.
    apply nil_length_inv in Hwf. rewrite Hwf. simpl. split; [done|constructor].
  - eexists _, _. split; [done|]. cbn [payloads].
    rewrite (view_whole _ _ (sort_list (view (payloads m) (IncomingData conn)))).
    + split; [apply sort_list_perm|apply sort_list_sorted].
    + by rewrite list_lookup_middle.
    + rewrite sort_list_length. by apply view_length.
Qed.

Lemma GetIncomingDataSortedByLength_sorted_witness :
  ∃ r m',
    GetIncomingDataSortedByLength mem_ties 0 = Some (r, m') ∧
    view (payloads m') r ≡ₚ view (payloads mem_ties) (IncomingData conn_ties) ∧
    StronglySorted longer_eq (view (payloads m') r).
Proof.
  apply (GetIncomingDataSortedByLength_sorted mem_ties 0 conn_ties);
    reflexivity.
Defined.

(** The example of the specification: lengths 10, 50, 3, 50 come out as the
    two chunks of length 50 in input order, then 10, then 3, which is also
    what the stable sort gives. *)
Example spec_stable_sort_desc_10_50_3_50 :
  spec_stable_sort_desc [chunk 0 10; chunk 1 50; chunk 2 3; chunk 3 50]
  = [chunk 1 50; chunk 3 50; chunk 0 10; chunk 2 3].
Proof. reflexivity. Qed.

Example GetIncomingDataSortedByLength_10_50_3_50 :
  (λ rm, view (payloads rm.2) rm.1)
    <$> GetIncomingDataSortedByLength mem_spec_example 0
  = Some [chunk 1 50; chunk 3 50; chunk 0 10; chunk 2 3].
Proof. by vm_compute. Qed.

(** C10: GetIncomingDataSortedByLength never mutates the Connection it is
    called on.  The struct, every byte array and every array of chunk headers
    that existed before the call are the same after it, so IncomingData shows
    the same chunks in the same order; the slice returned is nil exactly when
    IncomingData is empty and is otherwise a window on a newly made array. *)
Theorem GetIncomingDataSortedByLength_frame m c conn :
  conns m !! c = Some conn →
  wf_slice (payloads m) (IncomingData conn) = true →
  ∃ r m',
    GetIncomingDataSortedByLength m c = Some (r, m') ∧
    conns m' = conns m ∧
    bytes m' = bytes m ∧
    payloads m `prefix_of` payloads m' ∧
    view (payloads m') (IncomingData conn)
      = view (payloads m) (IncomingData conn) ∧
    (r = SNil ↔ len (IncomingData conn) = 0) ∧
    (r = SNil ∨ r = SMk (length (payloads m)) 0 (len (IncomingData conn))
                        (len (IncomingData conn))).
Proof.
  intros Hc Hwf. rewrite (GetIncomingDataSortedByLength_eq m c conn) by done.
  destruct (Nat.eqb_spec (len (IncomingData conn)) 0) as [Hn|Hn].
  - exists SNil, m. repeat split; auto.
  - eexists _, _. split; [done|]. cbn [payloads conns bytes].
    repeat split; try done.
    + by apply prefix_app_r.
    + by apply view_app_old.
    + by right.
Qed.

Lemma GetIncomingDataSortedByLength_frame_witness :
  ∃ r m',
    GetIncomingDataSortedByLength mem_ties 0 = Some (r, m') ∧
    conns m' = conns mem_ties ∧
    bytes m' = bytes mem_ties ∧
    payloads mem_ties `prefix_of` payloads m' ∧
    view (payloads m') (IncomingData conn_ties)
      = view (payloads mem_ties) (IncomingData conn_ties) ∧
    (r = SNil ↔ len (IncomingData conn_ties) = 0) ∧
    (r = SNil ∨ r = SMk (length (payloads mem_ties)) 0
                        (len (IncomingData conn_ties))
                        (len (IncomingData conn_ties))).
Proof.
  apply (GetIncomingDataSortedByLength_frame mem_ties 0 conn_ties);
    reflexivity.
Defined.

(** ** Frame filtering *)

Lemma uint16_valid (p : Z) : (0 ≤ p < 65536)%Z → uint16 p = p.
Proof. intros. unfold uint16. by apply Z.mod_small. Qed.

(** A frame that fails the test of [handlePacket] changes nothing. *)
Lemma handlePacket_rejected now packet pcs m :
  accepted pcs m packet = false → handlePacket now packet pcs m = (pcs, m, []).
Proof.
  unfold accepted, handlePacket.
  destruct (ipv4Layer packet) as [ip4|]; [|done].
  destruct (tcpLayer packet) as [tcp|]; [|done].
  intros Hacc. apply andb_false_iff in Hacc.
  rewrite !bool_decide_eq_false in Hacc.
  case_match eqn:Hor; [done|].
  apply orb_false_iff in Hor. rewrite !bool_decide_eq_false in Hor.
  destruct Hor as [? ?]. destruct Hacc; tauto.
Qed.

(** C2: a frame produces or updates a Flow Record only if it is IPv4, TCP,
    its source address equals the configured target address and its source
    port equals the configured target port; every other frame leaves the
    flow table, every Flow Record and the rest of the memory unchanged (and
    prints nothing).  The configured port is a TCP port, that is, within
    0..65535. *)
Theorem handlePacket_only_from_target now packet pcs m :
  (0 ≤ port pcs < 65536)%Z →
  spec_from_target pcs m packet = false →
  handlePacket now packet pcs m = (pcs, m, []).
Proof.
  intros Hport Hspec. apply handlePacket_rejected.
  unfold accepted. unfold spec_from_target in Hspec.
  by rewrite uint16_valid.
Qed.

Lemma handlePacket_only_from_target_witness :
  handlePacket (λ _, 0%Z) packet_other_port pcs_taiwan mem_ties
  = (pcs_taiwan, mem_ties, []).
Proof.
  apply (handlePacket_only_from_target (λ _, 0%Z) packet_other_port
           pcs_taiwan mem_ties).
  - simpl. lia.
  - reflexivity.
Defined.

(** ** Flow keys *)

Lemma split_digits_octet (b : byte) (r : string) :
  split_digits (octet_string b +:+ "." +:+ r) = (octet_string b, "." +:+ r).
Proof. destruct b; reflexivity. Qed.

Lemma octet_string_inj (b b' : byte) : octet_string b = octet_string b' → b = b'.
Proof.
  unfold octet_string. intros Heq%(inj pretty).
  apply (f_equal Byte.of_N) in Heq. rewrite !Byte.of_to_N in Heq. congruence.
Qed.

Lemma octet_dot_inj (b b' : byte) (r r' : string) :
  octet_string b +:+ "." +:+ r = octet_string b' +:+ "." +:+ r' →
  b = b' ∧ r = r'.
Proof.
  intros Heq. apply (f_equal split_digits) in Heq.
  rewrite !split_digits_octet in Heq. injection Heq as Hb Hr.
  split; [by apply octet_string_inj|done].
Qed.

Lemma IP_String_inj (a a' : IP) : IP_String a = IP_String a' → a = a'.
Proof.
  destruct a as [b1 b2 b3 b4], a' as [c1 c2 c3 c4]. unfold IP_String. simpl.
  intros [-> H1]%octet_dot_inj. apply octet_dot_inj in H1 as [-> H2].
  apply octet_dot_inj in H2 as [-> H3]. by apply octet_string_inj in H3 as ->.
Qed.

Lemma tuple_key_inj (t t' : Tuple) : tuple_key t = tuple_key t' → t = t'.
Proof.
  destruct t, t'. unfold tuple_key. simpl.
  intros [= ->%IP_String_inj ->%IP_String_inj -> ->]. done.
Qed.

Lemma frame_key_tuple (f : Frame) (tup : Tuple) :
  frame_key f = Some (tuple_key tup) ↔ frame_tuple f = Some tup.
Proof.
  unfold frame_key, frame_tuple.
  destruct (frame_ips f) as [[src dst]|], (f_tcp f) as [t|]; try done.
  split.
  - intros Heq. apply (inj Some) in Heq. f_equal. apply tuple_key_inj.
    exact Heq.
  - by intros [= <-].
Qed.

(** ** The flow table *)

Lemma set_connections_fields t pcs :
  ip (set_connections t pcs) = ip pcs ∧
  port (set_connections t pcs) = port pcs ∧
  cancelled (set_connections t pcs) = cancelled pcs ∧
  connections (set_connections t pcs) = t.
Proof. done. Qed.

(** What an accepted frame does to the table and the memory. *)
Lemma handlePacket_accepted now packet pcs m ip4 tcp :
  ipv4Layer packet = Some ip4 →
  tcpLayer packet = Some tcp →
  accepted pcs m packet = true →
  (∀ p, connections pcs !! packet_key (bytes m) ip4 tcp = Some p →
        is_Some (conns m !! p)) →
  wf_slice (bytes m) (tcp_Payload tcp) = true →
  ∃ pe base t s' pcs' m' out,
    handlePacket now packet pcs m = (pcs', m', out) ∧
    match connections pcs !! packet_key (bytes m) ip4 tcp with
    | Some p => pe = p ∧ conns m !! p = Some base ∧ t = now 0
    | None => pe = length (conns m) ∧
              base = set_StartTime (now 0) (conn_of ip4 tcp) ∧ t = now 2
    end ∧
    ip pcs' = ip pcs ∧ port pcs' = port pcs ∧
    connections pcs' = <[packet_key (bytes m) ip4 tcp := pe]> (connections pcs) ∧
    conns m' !! pe = Some (set_IncomingData s' (set_LastSeen t base)) ∧
    (∀ q, q ≠ pe → q < length (conns m) → conns m' !! q = conns m !! q) ∧
    if 0 <? len (tcp_Payload tcp)
    then append SNil (payloads m) (IncomingData base)
           (SMk (length (bytes m)) 0 (len (tcp_Payload tcp))
              (len (tcp_Payload tcp)))
         = (s', payloads m') ∧
         bytes m' = bytes m ++ [view (bytes m) (tcp_Payload tcp)]
    else s' = IncomingData base ∧ payloads m' = payloads m ∧
         bytes m' = bytes m.
Proof.
  intros Hip Htcp Hacc Hvalid Hpay.
  unfold accepted in Hacc. rewrite Hip, Htcp in Hacc.
  apply andb_true_iff in Hacc as [Hsrc Hport].
  rewrite bool_decide_eq_true in Hsrc, Hport.
  unfold handlePacket. rewrite Hip, Htcp.
  rewrite (bool_decide_eq_false_2 (_ ≠ ip pcs)) by (intros ?; done).
  rewrite (bool_decide_eq_false_2 (_ ≠ uint16 _)) by (intros ?; done).
  cbn [orb].
  change (Key (bytes m) (conn_of ip4 tcp)) with (packet_key (bytes m) ip4 tcp).
  destruct (connections pcs !! packet_key (bytes m) ip4 tcp) as [p|] eqn:Hlook.
  - destruct (Hvalid p eq_refl) as [c Hc].
    assert (p < length (conns m)) as Hp by eauto using lookup_lt_Some.
    rewrite alter_app_l by done.
    rewrite (list_alter_lookup _ _ _ c) by done.
    assert ((<[p:=set_LastSeen (now 0) c]> (conns m) ++ [conn_of ip4 tcp]) !! p
            = Some (set_LastSeen (now 0) c)) as Hcs2.
    { rewrite lookup_app_l by (by rewrite length_insert).
      by apply list_lookup_insert_eq. }
    destruct (0 <? len (tcp_Payload tcp)) eqn:Hlen.
    + unfold make. rewrite copy_fresh by done. rewrite Hcs2. cbn [from_option].
      change (IncomingData (set_LastSeen (now 0) c)) with (IncomingData c).
      destruct (append SNil (payloads m) (IncomingData c) _) as [inc ph] eqn:Happ.
      exists p, c, (now 0), inc. eexists _, _, _. split; [done|].
      cbn [conns bytes payloads].
      split_and!; try done.
      * by rewrite insert_id.
      * rewrite alter_app_l by (by rewrite length_insert).
        rewrite (list_alter_lookup _ _ _ (set_LastSeen (now 0) c))
          by (by apply list_lookup_insert_eq).
        rewrite lookup_app_l by (by rewrite !length_insert).
        rewrite list_insert_insert_eq. by apply list_lookup_insert_eq.
      * intros q Hq Hlt.
        rewrite alter_app_l by (by rewrite length_insert).
        rewrite lookup_app_l by (by rewrite length_alter, length_insert).
        rewrite list_lookup_alter_ne by done.
        by rewrite list_lookup_insert_ne.
    + exists p, c, (now 0), (IncomingData c). eexists _, _, _.
      split; [done|]. cbn [conns bytes payloads].
      split_and!; try done.
      * by rewrite insert_id.
      * intros q Hq Hlt.
        rewrite lookup_app_l by (by rewrite length_insert).
        by rewrite list_lookup_insert_ne.
  - rewrite !alter_app_last.
    destruct (0 <? len (tcp_Payload tcp)) eqn:Hlen.
    + unfold make. rewrite copy_fresh by done.
      rewrite list_lookup_middle by done. cbn [from_option].
      destruct (append SNil (payloads m) _ _) as [inc ph] eqn:Happ.
      exists (length (conns m)), (set_StartTime (now 0) (conn_of ip4 tcp)),
        (now 2), inc.
      eexists _, _, _. split; [done|]. cbn [conns bytes payloads].
      split_and!; try done.
      * rewrite alter_app_last. by rewrite list_lookup_middle.
      * intros q Hq Hlt. rewrite alter_app_last. by rewrite lookup_app_l.
    + exists (length (conns m)), (set_StartTime (now 0) (conn_of ip4 tcp)),
        (now 2), SNil.
      eexists _, _, _. split; [done|]. cbn [conns bytes payloads].
      split_and!; try done.
      * by rewrite list_lookup_middle.
      * intros q Hq Hlt. by rewrite lookup_app_l.
Qed.

Lemma IP_at_app (l tail : list byte) (off : nat) :
  off + 4 ≤ length l → IP_at (l ++ tail) off = IP_at l off.
Proof.
  intros Hoff. unfold IP_at, octet_at.
  by rewrite !lookup_app_l by lia.
Qed.

(** The address slices of a frame decoded in buffer [a] show the addresses
    in the bytes of the frame as long as the buffer holds the frame. *)
Lemma load_decode (bs : heap byte) f a tail o :
  bs !! a = Some (frame_data f ++ tail) →
  frame_ipv4 f = Some o →
  load_IP bs (mkIPSlice a (o + 12)) = IP_at (frame_data f) (o + 12) ∧
  load_IP bs (mkIPSlice a (o + 16)) = IP_at (frame_data f) (o + 16).
Proof.
  intros Ha Ho. unfold frame_ipv4 in Ho.
  destruct (f_ipv4 f) as [o'|]; [|done].
  destruct (Nat.leb_spec (o' + 20) (length (frame_data f))); [|done].
  injection Ho as ->.
  unfold load_IP, array. cbn [ip_arr ip_off]. rewrite Ha. cbn [default].
  split; apply IP_at_app; lia.
Qed.

Lemma accepted_decode pcs m f a tail :
  bytes m !! a = Some (frame_data f ++ tail) →
  accepted pcs m (decode_frame f a)
  = from_target (ip pcs) (uint16 (port pcs)) f.
Proof.
  intros Ha. unfold accepted, from_target, decode_frame, frame_ips. simpl.
  destruct (frame_ipv4 f) as [o|] eqn:Ho; [|done]. simpl.
  destruct (load_decode _ f a tail o Ha Ho) as [-> _].
  by destruct (f_tcp f).
Qed.

Lemma frame_ipv4_length f o :
  frame_ipv4 f = Some o → o + 20 ≤ length (frame_data f).
Proof.
  unfold frame_ipv4. destruct (f_ipv4 f) as [o'|]; [|done].
  destruct (Nat.leb_spec (o' + 20) (length (frame_data f))); [|done].
  by intros [= <-].
Qed.

Lemma decode_frame_layers (bs : heap byte) f a tail ip4 tcp :
  bs !! a = Some (frame_data f ++ tail) →
  ipv4Layer (decode_frame f a) = Some ip4 →
  tcpLayer (decode_frame f a) = Some tcp →
  frame_key f = Some (packet_key bs ip4 tcp) ∧
  tcp_Payload tcp = frame_payload f a ∧
  ∃ o, o + 20 ≤ length (frame_data f) ∧
       ip_SrcIP ip4 = mkIPSlice a (o + 12) ∧
       ip_DstIP ip4 = mkIPSlice a (o + 16).
Proof.
  intros Ha. unfold decode_frame, frame_key, frame_ips, packet_key. simpl.
  destruct (frame_ipv4 f) as [o|] eqn:Ho; [|done]. simpl. intros [= <-].
  destruct (load_decode _ f a tail o Ha Ho) as [Hsrc Hdst].
  cbn [ip_SrcIP ip_DstIP]. rewrite Hsrc, Hdst.
  destruct (f_tcp f); simpl; [|done]. intros [= <-].
  split_and!; [done..|]. exists o. split; [|done].
  by apply frame_ipv4_length.
Qed.

Lemma frame_payload_view (bs : heap byte) f a tail :
  bs !! a = Some (frame_data f ++ tail) →
  view bs (frame_payload f a) = f_body f ∧
  wf_slice bs (frame_payload f a) = true.
Proof.
  intros Ha. unfold frame_data in Ha. rewrite <-(assoc_L (++)) in Ha. split.
  - unfold frame_payload, view, array. rewrite Ha. simpl.
    rewrite drop_app_length. by rewrite take_app_length.
  - apply wf_slice_spec. eexists. split_and!; [done|done|].
    rewrite !length_app. lia.
Qed.

(** Reading a frame touches only buffers of the library. *)
Lemma read_frame_spec f m bufs :
  (∀ a, a ∈ bufs → a < length (bytes m)) →
  ∃ a bs1 bufs1 tail,
    read_frame f m bufs
    = (decode_frame f a,
       {| bytes := bs1; payloads := payloads m; conns := conns m |}, bufs1) ∧
    bs1 !! a = Some (frame_data f ++ tail) ∧
    (∀ b, b ∈ bufs1 → b < length bs1) ∧
    (∀ x, owned (bytes m) bufs x →
          owned bs1 bufs1 x ∧ view bs1 x = view (bytes m) x).
Proof.
  intros Hbufs. unfold read_frame.
  assert (∃ a bs1 bufs1 tail,
    (a, bs1, bufs1) = (length (bytes m), bytes m ++ [frame_data f],
                       length (bytes m) :: bufs) ∧
    bs1 !! a = Some (frame_data f ++ tail) ∧
    (∀ b, b ∈ bufs1 → b < length bs1) ∧
    (∀ x, owned (bytes m) bufs x →
          owned bs1 bufs1 x ∧ view bs1 x = view (bytes m) x)) as Hfresh.
  { eexists _, _, _, []. split; [done|]. split_and!.
    - by rewrite list_lookup_middle, app_nil_r.
    - intros b. rewrite length_app, elem_of_cons. simpl.
      intros [->|?%Hbufs]; lia.
    - intros x [Hwf Hno]. split; [split|].
      + by apply wf_slice_app.
      + intros b Hb. rewrite elem_of_cons. intros [->|?].
        * pose proof (wf_slice_arr_lt _ _ _ Hwf Hb). lia.
        * by eapply Hno.
      + by apply view_app_old. }
  destruct (f_reuse f) as [a|]; [destruct (bool_decide_reflect (a ∈ bufs))|].
  - eexists a, _, bufs, _.
    split; [done|]. split_and!.
    + apply list_lookup_insert_eq. auto.
    + intros b. rewrite length_insert. auto.
    + intros x [Hwf Hno].
      assert (arr_of x ≠ Some a) by (intros ?; by eapply Hno).
      split; [split|].
      * by apply wf_slice_insert_ne.
      * done.
      * by apply view_insert_ne.
  - destruct Hfresh as (a' & bs1 & bufs1 & tail & [= -> -> ->] & ?). eauto 10.
  - destruct Hfresh as (a' & bs1 & bufs1 & tail & [= -> -> ->] & ?). eauto 10.
Qed.

Lemma chunk_bytes_eq m m' c c' :
  view (payloads m') (IncomingData c') = view (payloads m) (IncomingData c) →
  (∀ x, x ∈ view (payloads m) (IncomingData c) →
        view (bytes m') x = view (bytes m) x) →
  chunk_bytes m' c' = chunk_bytes m c.
Proof.
  unfold chunk_bytes. intros -> Hx. apply list_fmap_ext.
  intros i x Hi. apply Hx. by eapply list_elem_of_lookup_2.
Qed.

Lemma read_frame_inv st f packet m1 bufs1 :
  capture_inv st →
  read_frame f (cap_mem st) (cap_bufs st) = (packet, m1, bufs1) →
  let st1 := {| cap_pcs := cap_pcs st; cap_mem := m1; cap_bufs := bufs1 |} in
  capture_inv st1 ∧
  (∀ k, flow_record st1 k = flow_record st k) ∧
  (∀ k, flow_chunks st1 k = flow_chunks st k) ∧
  ∃ a tail, packet = decode_frame f a ∧
       bytes m1 !! a = Some (frame_data f ++ tail) ∧
       view (bytes m1) (frame_payload f a) = f_body f ∧
       wf_slice (bytes m1) (frame_payload f a) = true.
Proof.
  intros Hinv Hread. 
  destruct (read_frame_spec f (cap_mem st) (cap_bufs st))
    as (a & bs1 & bufs1' & tail & Heq & Ha & Hbufs & Hown).
  { apply Hinv. }
  rewrite Heq in Hread. injection Hread as <- <- <-.
  set (st1 := {| cap_pcs := cap_pcs st; cap_mem := _; cap_bufs := _ |}).
  assert (∀ k, flow_record st1 k = flow_record st k) as Hrec by done.
  split_and!; [|done| |].
  - constructor.
    + apply Hinv.
    + apply Hinv.
    + intros k c. rewrite Hrec. apply Hinv.
    + intros k1 k2 c1 c2 a'. rewrite !Hrec. apply Hinv.
    + intros k c x. rewrite Hrec. intros Hc Hx. apply Hown.
      by eapply (chunks_owned st Hinv).
    + done.
  - intros k. unfold flow_chunks. rewrite Hrec.
    destruct (flow_record st k) as [c|] eqn:Hc; [|done]. simpl. f_equal.
    apply chunk_bytes_eq; [done|]. intros x Hx. apply Hown.
    by eapply (chunks_owned st Hinv).
  - exists a, tail. split; [done|]. split; [done|].
    by eapply frame_payload_view.
Qed.

Lemma handlePacket_inv st now packet ip4 tcp :
  capture_inv st →
  ipv4Layer packet = Some ip4 → tcpLayer packet = Some tcp →
  accepted (cap_pcs st) (cap_mem st) packet = true →
  wf_slice (bytes (cap_mem st)) (tcp_Payload tcp) = true →
  capture_inv (after_packet st now packet) ∧
  ip (cap_pcs (after_packet st now packet)) = ip (cap_pcs st) ∧
  port (cap_pcs (after_packet st now packet)) = port (cap_pcs st) ∧
  (∀ k, k ≠ packet_key (bytes (cap_mem st)) ip4 tcp →
     connections (cap_pcs (after_packet st now packet)) !! k
       = connections (cap_pcs st) !! k ∧
     flow_record (after_packet st now packet) k = flow_record st k ∧
     flow_chunks (after_packet st now packet) k = flow_chunks st k) ∧
  ∃ base t s',
    match flow_record st (packet_key (bytes (cap_mem st)) ip4 tcp) with
    | Some c =>
        base = c ∧ t = now 0 ∧
        connections (cap_pcs (after_packet st now packet)) !! packet_key (bytes (cap_mem st)) ip4 tcp
          = connections (cap_pcs st) !! packet_key (bytes (cap_mem st)) ip4 tcp
    | None => base = set_StartTime (now 0) (conn_of ip4 tcp) ∧ t = now 2
    end ∧
    flow_record (after_packet st now packet) (packet_key (bytes (cap_mem st)) ip4 tcp)
      = Some (set_IncomingData s' (set_LastSeen t base)) ∧
    (len (tcp_Payload tcp) = 0 →
       s' = IncomingData base ∧
       payloads (cap_mem (after_packet st now packet)) = payloads (cap_mem st) ∧
       bytes (cap_mem (after_packet st now packet)) = bytes (cap_mem st)) ∧
    flow_chunks (after_packet st now packet) (packet_key (bytes (cap_mem st)) ip4 tcp)
      = Some (default [] (flow_chunks st (packet_key (bytes (cap_mem st)) ip4 tcp))
              ++ (if 0 <? len (tcp_Payload tcp)
                  then [view (bytes (cap_mem st)) (tcp_Payload tcp)] else [])) ∧
    bytes (cap_mem st) `prefix_of` bytes (cap_mem (after_packet st now packet)).
Proof.
  intros Hinv Hip Htcp Hacc Hpay.
  destruct (handlePacket_accepted now packet (cap_pcs st) (cap_mem st) ip4 tcp)
    as (pe & base & t & s' & pcs' & m' & out & Heq & Hmatch & Hipf & Hportf
        & Htable & Hpe & Hother & Hmem); try done.
  { intros p Hp. destruct (table_valid st Hinv _ _ Hp) as (c & Hc & _).
    by rewrite Hc. }
  unfold after_packet. rewrite Heq. cbn [fst snd].
  set (st' := {| cap_pcs := pcs'; cap_mem := m'; cap_bufs := cap_bufs st |}).
  set (key := packet_key (bytes (cap_mem st)) ip4 tcp) in *.
  set (body := view (bytes (cap_mem st)) (tcp_Payload tcp)).
  set (pcs := cap_pcs st) in *. set (m := cap_mem st) in *.
  assert ((SrcPort base = kSrcPort key ∧ DstPort base = kDstPort key) ∧
          wf_slice (payloads m) (IncomingData base) = true ∧
          (∀ x, x ∈ view (payloads m) (IncomingData base) →
                owned (bytes m) (cap_bufs st) x) ∧
          match connections pcs !! key with
          | Some p => flow_record st key = Some base
          | None => flow_record st key = None ∧ IncomingData base = SNil
          end ∧
          (∀ k q, k ≠ key → connections pcs !! k = Some q →
                  q ≠ pe ∧ q < length (conns m)))
    as (HKey & Hwfb & Hownb & Hrecb & Hq).
  { destruct (connections pcs !! key) as [p|] eqn:Hlook.
    - destruct Hmatch as (-> & Hbase & ->).
      assert (flow_record st key = Some base) as Hfr.
      { unfold flow_record. fold pcs m. by rewrite Hlook. }
      destruct (table_valid st Hinv _ _ Hlook) as (c & Hc & HK).
      fold m in Hc. rewrite Hbase in Hc. injection Hc as <-.
      split; [exact HK|]. split_and!.
      + by eapply chunks_wf.
      + intros x Hx. by eapply chunks_owned.
      + done.
      + intros k q Hk Hkq.
        destruct (table_valid st Hinv _ _ Hkq) as (c' & Hc' & HK'). fold m in Hc'.
        split; [|eauto using lookup_lt_Some]. intros ->.
        apply Hk. by eapply (table_inj st Hinv).
    - destruct Hmatch as (-> & -> & ->).
      split; [done|].
      split_and!; [done|intros x; simpl; by rewrite elem_of_nil| |done|].
      + unfold flow_record. fold pcs. by rewrite Hlook.
      + intros k q Hk Hkq.
        destruct (table_valid st Hinv _ _ Hkq) as (c' & Hc' & _). fold m in Hc'.
        apply lookup_lt_Some in Hc'. lia. }
  assert (∀ k, k ≠ key →
            connections pcs' !! k = connections pcs !! k ∧
            flow_record st' k = flow_record st k) as Hrec_other.
  { intros k Hk.
    assert (connections pcs' !! k = connections pcs !! k) as Hl
      by (rewrite Htable; by apply lookup_insert_ne).
    split; [done|]. unfold flow_record. cbn [cap_pcs cap_mem st']. fold pcs m.
    rewrite Hl. destruct (connections pcs !! k) as [q|] eqn:Hkq; [|done]. simpl.
    destruct (Hq k q Hk Hkq). by apply Hother. }
  assert (flow_record st' key = Some (set_IncomingData s' (set_LastSeen t base)))
    as Hrec_key.
  { unfold flow_record. cbn [cap_pcs cap_mem st'].
    by rewrite Htable, lookup_insert_eq. }
  set (news := if 0 <? len (tcp_Payload tcp)
               then [SMk (length (bytes m)) 0 (len (tcp_Payload tcp))
                       (len (tcp_Payload tcp))]
               else []).
  assert (view (payloads m') s' = view (payloads m) (IncomingData base) ++ news ∧
     wf_slice (payloads m') s' = true ∧
     (∀ t0, wf_slice (payloads m) t0 = true → wf_slice (payloads m') t0 = true) ∧
     (∀ t0, wf_slice (payloads m) t0 = true →
            (∀ a, arr_of t0 = Some a → arr_of s' ≠ Some a) →
            view (payloads m') t0 = view (payloads m) t0) ∧
     (∀ a, arr_of s' = Some a →
           arr_of (IncomingData base) = Some a ∨ a = length (payloads m)) ∧
     (∀ x, wf_slice (bytes m) x = true →
           wf_slice (bytes m') x = true ∧ view (bytes m') x = view (bytes m) x) ∧
     (∀ x, x ∈ news →
           owned (bytes m') (cap_bufs st) x ∧ view (bytes m') x = body) ∧
     length (bytes m) ≤ length (bytes m'))
    as (MF1 & MF2 & MF3 & MF4 & MF5 & MF6 & MF7 & MF8).
  { subst news. destruct (0 <? len (tcp_Payload tcp)) eqn:Hlen.
    - destruct Hmem as [Happ Hbytes].
      destruct (append_spec _ _ _ _ _ _ Hwfb Happ)
        as (Hv & Hw & _ & (a' & Ha' & Hor) & Hall & Hoth).
      split_and!; try done.
      + intros t0 Ht0 Hne. apply Hoth; [done|]. rewrite Ha'. intros Heq'.
        by eapply Hne.
      + intros a Ha. rewrite Ha' in Ha. by injection Ha as <-.
      + intros x Hx. rewrite Hbytes.
        split; [by apply wf_slice_app|by apply view_app_old].
      + intros x ->%list_elem_of_singleton. rewrite Hbytes.
        assert (length body = len (tcp_Payload tcp)) by (by apply view_length).
        split; [split|].
        * apply wf_slice_spec. eexists. rewrite list_lookup_middle by done.
          split_and!; [done|done|]. fold body. lia.
        * intros a [= <-] Hin. apply (bufs_allocated st Hinv) in Hin.
          fold m in Hin. lia.
        * apply view_whole; [by rewrite list_lookup_middle|done].
      + rewrite Hbytes, length_app. lia.
    - destruct Hmem as (-> & -> & ->). rewrite app_nil_r.
      split_and!; try done.
      + intros a Ha. by left.
      + intros x Hx. by apply elem_of_nil in Hx. }
  assert (∀ k c a, k ≠ key → flow_record st k = Some c →
            arr_of (IncomingData c) = Some a → arr_of s' ≠ Some a) as Hapart.
  { intros k c a Hk Hc Ha Hs'. destruct (MF5 a Hs') as [Hb| ->].
    - destruct (connections pcs !! key) eqn:Hlook.
      + apply Hk. by eapply (chunks_apart st Hinv k key c base a).
      + destruct Hrecb as [_ Hnil]. by rewrite Hnil in Hb.
    - pose proof (wf_slice_arr_lt _ _ _ (chunks_wf st Hinv _ _ Hc) Ha) as Hlt.
      fold m in Hlt. lia. }
  assert (∀ k c, k ≠ key → flow_record st k = Some c →
            view (payloads m') (IncomingData c)
            = view (payloads m) (IncomingData c)) as Hview_other.
  { intros k c Hk Hc. apply MF4; [by eapply chunks_wf|].
    intros a Ha. by eapply Hapart. }
  assert (∀ c, (∀ x, x ∈ view (payloads m) (IncomingData c) →
                     owned (bytes m) (cap_bufs st) x) →
               view (bytes m') <$> view (payloads m) (IncomingData c)
               = chunk_bytes m c) as Hbytes_old.
  { intros c Hc. apply list_fmap_ext. intros i x Hi.
    apply MF6, Hc. by eapply list_elem_of_lookup_2. }
  split_and!.
  - constructor.
    + intros k p Hp. cbn [cap_pcs cap_mem st'] in *. rewrite Htable in Hp.
      destruct (decide (k = key)) as [->|Hk].
      * rewrite lookup_insert_eq in Hp. injection Hp as <-.
        eexists. split; [exact Hpe|]. exact HKey.
      * rewrite lookup_insert_ne in Hp by done.
        destruct (table_valid st Hinv _ _ Hp) as (c & Hc & HK).
        exists c. split; [|done]. destruct (Hq k p Hk Hp).
        by rewrite Hother.
    + intros k1 k2 p Hp1 Hp2. cbn [cap_pcs st'] in *.
      rewrite Htable in Hp1, Hp2.
      destruct (decide (k1 = key)) as [->|Hk1],
               (decide (k2 = key)) as [->|Hk2]; try done.
      * rewrite lookup_insert_eq in Hp1. injection Hp1 as <-.
        rewrite lookup_insert_ne in Hp2 by done.
        by destruct (Hq k2 pe Hk2 Hp2).
      * rewrite lookup_insert_eq in Hp2. injection Hp2 as <-.
        rewrite lookup_insert_ne in Hp1 by done.
        by destruct (Hq k1 pe Hk1 Hp1).
      * rewrite lookup_insert_ne in Hp1, Hp2 by done.
        by eapply (table_inj st Hinv).
    + intros k c Hc. cbn [cap_mem st'].
      destruct (decide (k = key)) as [->|Hk].
      * rewrite Hrec_key in Hc. by injection Hc as <-.
      * rewrite (proj2 (Hrec_other k Hk)) in Hc. apply MF3.
        by eapply chunks_wf.
    + intros k1 k2 c1 c2 a H1 H2 Ha1 Ha2.
      destruct (decide (k1 = key)) as [->|Hk1],
               (decide (k2 = key)) as [->|Hk2]; try done.
      * rewrite Hrec_key in H1. injection H1 as <-.
        rewrite (proj2 (Hrec_other k2 Hk2)) in H2.
        by destruct (Hapart k2 c2 a Hk2 H2 Ha2).
      * rewrite Hrec_key in H2. injection H2 as <-.
        rewrite (proj2 (Hrec_other k1 Hk1)) in H1.
        by destruct (Hapart k1 c1 a Hk1 H1 Ha1).
      * rewrite (proj2 (Hrec_other k1 Hk1)) in H1.
        rewrite (proj2 (Hrec_other k2 Hk2)) in H2.
        by eapply (chunks_apart st Hinv).
    + intros k c x Hc Hx. cbn [cap_mem cap_bufs st'] in *.
      destruct (decide (k = key)) as [->|Hk].
      * rewrite Hrec_key in Hc. injection Hc as <-.
        cbn [IncomingData set_IncomingData] in Hx. rewrite MF1 in Hx.
        apply elem_of_app in Hx as [Hx|Hx]; [|by apply MF7].
        destruct (Hownb x Hx) as [Hwf Hno]. split; [by apply MF6|done].
      * rewrite (proj2 (Hrec_other k Hk)) in Hc.
        rewrite (Hview_other k c Hk Hc) in Hx.
        destruct (chunks_owned st Hinv k c x Hc Hx) as [Hwf Hno].
        split; [by apply MF6|done].
    + intros a Ha. cbn [cap_mem cap_bufs st'] in *.
      apply (bufs_allocated st Hinv) in Ha. fold m in Ha. lia.
  - done.
  - done.
  - intros k Hk. destruct (Hrec_other k Hk) as [Hl Hr].
    split_and!; [done|done|]. unfold flow_chunks. rewrite Hr.
    destruct (flow_record st k) as [c|] eqn:Hc; [|done]. simpl. f_equal.
    unfold chunk_bytes at 1. cbn [cap_mem st']. rewrite (Hview_other k c Hk Hc).
    apply Hbytes_old. intros x Hx. by eapply (chunks_owned st Hinv).
  - exists base, t, s'. split_and!.
    + destruct (connections pcs !! key) as [p|] eqn:Hlook.
      * rewrite Hrecb. destruct Hmatch as (-> & _ & ->).
        split_and!; [done|done|]. cbn [cap_pcs st'].
        by rewrite Htable, lookup_insert_eq.
      * destruct Hrecb as [-> _]. by destruct Hmatch as (_ & -> & ->).
    + done.
    + intros Hlen. rewrite Hlen in Hmem. simpl in Hmem.
      destruct Hmem as (? & ? & ?). cbn [cap_mem st']. by split_and!.
    + unfold flow_chunks. rewrite Hrec_key. simpl. f_equal.
      unfold chunk_bytes at 1. cbn [cap_mem st' IncomingData set_IncomingData].
      rewrite MF1, fmap_app, (Hbytes_old base Hownb). f_equal.
      * destruct (connections pcs !! key) as [p|] eqn:Hlook.
        -- by rewrite Hrecb.
        -- destruct Hrecb as [-> Hnil]. simpl. unfold chunk_bytes.
           by rewrite Hnil.
      * subst news. destruct (0 <? len (tcp_Payload tcp)); [|done].
        cbn [fmap list_fmap]. f_equal.
        refine (proj2 (MF7 _ _)). by apply list_elem_of_singleton.
    + cbn [cap_mem st'].
      destruct (0 <? len (tcp_Payload tcp)).
      * destruct Hmem as [_ ->]. by apply prefix_app_r.
      * by destruct Hmem as (_ & _ & ->).
Qed.

Lemma handle_frame_after st now f packet m1 bufs1 :
  read_frame f (cap_mem st) (cap_bufs st) = (packet, m1, bufs1) →
  (handle_frame st (now, f)).1
  = after_packet {| cap_pcs := cap_pcs st; cap_mem := m1; cap_bufs := bufs1 |}
      now packet.
Proof.
  intros Hread. unfold handle_frame, after_packet. cbn [fst snd].
  rewrite Hread. cbn [cap_pcs cap_mem cap_bufs].
  by destruct (handlePacket now packet (cap_pcs st) m1) as [[pcs' m'] out].
Qed.

Lemma body_nonempty (f : Frame) :
  (0 <? length (f_body f)) = bool_decide (f_body f ≠ []).
Proof.
  by destruct (f_body f).
Qed.

Lemma in_range_allocated (bs : heap byte) (s : IPSlice) :
  in_range bs s → ip_arr s < length bs.
Proof.
  unfold in_range, array. intros Hs.
  destruct (bs !! ip_arr s) eqn:Ha; [by eapply lookup_lt_Some|].
  simpl in Hs. lia.
Qed.

Lemma array_prefix (bs bs' : heap byte) (a : addr) :
  a < length bs → bs `prefix_of` bs' → array bs' a = array bs a.
Proof. intros Ha [ext ->]. unfold array. by rewrite lookup_app_l. Qed.

Lemma in_range_prefix (bs bs' : heap byte) (s : IPSlice) :
  in_range bs s → bs `prefix_of` bs' → in_range bs' s.
Proof.
  intros Hs Hpre. unfold in_range.
  rewrite (array_prefix bs bs') by auto using in_range_allocated. exact Hs.
Qed.

Lemma load_IP_prefix (bs bs' : heap byte) (s : IPSlice) :
  in_range bs s → bs `prefix_of` bs' → load_IP bs' s = load_IP bs s.
Proof.
  intros Hs Hpre. unfold load_IP.
  by rewrite (array_prefix bs bs') by auto using in_range_allocated.
Qed.

Lemma Key_prefix (bs bs' : heap byte) (c : Connection) :
  in_range bs (SrcIP c) → in_range bs (DstIP c) →
  bs `prefix_of` bs' → Key bs' c = Key bs c.
Proof.
  intros Hs Hd Hpre. unfold Key. by rewrite !(load_IP_prefix bs bs').
Qed.

(** One frame through the capture loop: the invariant is kept, frames that
    do not feed a flow leave it alone, and a frame that feeds a flow updates
    its record and adds its payload, if not empty, to its chunks.  A record
    that the frame creates has its address slices in the buffer the frame was
    read into and shows, after the call, the key it is filed under. *)
Lemma handle_frame_spec st now f :
  capture_inv st →
  capture_inv (handle_frame st (now, f)).1 ∧
  ip (cap_pcs (handle_frame st (now, f)).1) = ip (cap_pcs st) ∧
  port (cap_pcs (handle_frame st (now, f)).1) = port (cap_pcs st) ∧
  (∀ k, feeds (ip (cap_pcs st)) (uint16 (port (cap_pcs st))) k f = false →
     connections (cap_pcs (handle_frame st (now, f)).1) !! k
       = connections (cap_pcs st) !! k ∧
     flow_record (handle_frame st (now, f)).1 k = flow_record st k ∧
     flow_chunks (handle_frame st (now, f)).1 k = flow_chunks st k) ∧
  (∀ k, feeds (ip (cap_pcs st)) (uint16 (port (cap_pcs st))) k f = true →
     ∃ base t s',
       match flow_record st k with
       | Some c =>
           base = c ∧ t = now 0 ∧
           connections (cap_pcs (handle_frame st (now, f)).1) !! k
             = connections (cap_pcs st) !! k
       | None =>
           (Key (bytes (cap_mem (handle_frame st (now, f)).1)) base = k ∧
            in_range (bytes (cap_mem (handle_frame st (now, f)).1))
              (SrcIP base) ∧
            in_range (bytes (cap_mem (handle_frame st (now, f)).1))
              (DstIP base)) ∧
           StartTime base = now 0 ∧
           IncomingData base = SNil ∧ IsFinished base = false ∧ t = now 2
       end ∧
       flow_record (handle_frame st (now, f)).1 k
         = Some (set_IncomingData s' (set_LastSeen t base)) ∧
       (f_body f = [] →
          s' = IncomingData base ∧
          payloads (cap_mem (handle_frame st (now, f)).1)
            = payloads (cap_mem st)) ∧
       flow_chunks (handle_frame st (now, f)).1 k
         = Some (default [] (flow_chunks st k)
                 ++ (if bool_decide (f_body f ≠ []) then [f_body f] else []))).
Proof.
  intros Hinv.
  destruct (read_frame f (cap_mem st) (cap_bufs st)) as [[packet m1] bufs1]
    eqn:Hread.
  rewrite (handle_frame_after st now f packet m1 bufs1 Hread).
  destruct (read_frame_inv st f packet m1 bufs1 Hinv Hread)
    as (Hinv1 & Hrec1 & Hchunks1 & a & tail & -> & Ha & Hbody & Hwf).
  assert (payloads m1 = payloads (cap_mem st)) as Hpay1.
  { unfold read_frame in Hread. repeat case_match; by simplify_eq. }
  set (st1 := {| cap_pcs := cap_pcs st; cap_mem := m1; cap_bufs := bufs1 |}) in *.
  unfold feeds. rewrite <-(accepted_decode (cap_pcs st) m1 f a tail Ha).
  destruct (accepted (cap_pcs st) m1 (decode_frame f a)) eqn:Hacc.
  - destruct (ipv4Layer (decode_frame f a)) as [ip4|] eqn:Hip;
      [|by unfold accepted in Hacc; rewrite Hip in Hacc].
    destruct (tcpLayer (decode_frame f a)) as [tcp|] eqn:Htcp;
      [|by unfold accepted in Hacc; rewrite Hip, Htcp in Hacc].
    destruct (decode_frame_layers (bytes m1) f a tail ip4 tcp Ha Hip Htcp)
      as (Hkey & Hpayload & o & Ho & Hsrc & Hdst).
    destruct (handlePacket_inv st1 now (decode_frame f a) ip4 tcp)
      as (Hinv' & Hipf & Hportf & Hother & base & t & s' & Hmatch & Hrec
          & Hempty & Hchunks & Hprefix); try done.
    { by rewrite Hpayload. }
    rewrite Hpayload in Hempty, Hchunks.
    cbn [cap_mem st1] in Hchunks, Hprefix, Hother, Hmatch, Hrec.
    rewrite Hbody in Hchunks.
    cbn [len frame_payload] in Hempty, Hchunks.
    rewrite body_nonempty in Hchunks.
    split_and!; [done|done|done| |].
    + intros k Hk. cbn [andb] in Hk. rewrite bool_decide_eq_false in Hk.
      assert (k ≠ packet_key (bytes m1) ip4 tcp) as Hne by congruence.
      destruct (Hother k Hne) as (? & ? & ?).
      by rewrite <-Hrec1, <-Hchunks1.
    + intros k Hk. cbn [andb] in Hk. rewrite bool_decide_eq_true in Hk.
      assert (k = packet_key (bytes m1) ip4 tcp) as -> by congruence.
      exists base, t, s'. rewrite <-Hrec1, <-Hchunks1. split_and!.
      * destruct (flow_record st1 (packet_key (bytes m1) ip4 tcp)); [done|].
        destruct Hmatch as [-> ->].
        assert (in_range (bytes m1) (ip_SrcIP ip4) ∧
                in_range (bytes m1) (ip_DstIP ip4)) as [Hrs Hrd].
        { rewrite Hsrc, Hdst. unfold in_range, array. cbn [ip_arr ip_off].
          rewrite Ha. simpl. rewrite length_app. lia. }
        cbn [SrcIP DstIP set_StartTime conn_of].
        split_and!; try done; try by eapply in_range_prefix.
        by rewrite (Key_prefix (bytes m1)).
      * done.
      * intros Hnil. destruct Hempty as (? & ? & ?); [by rewrite Hnil|].
        split; [done|]. by rewrite <-Hpay1.
      * done.
  - unfold after_packet. rewrite handlePacket_rejected by done.
    cbn [fst snd]. split_and!; [by destruct st1|done|done| |done].
    intros k _. by rewrite <-Hrec1, <-Hchunks1.
Qed.

(** A frame that is not from the target, read into whatever buffer, leaves
    the service, the structs and the arrays of chunk headers as they are,
    and with them the bytes of the chunks of every flow. *)
Lemma handle_frame_other_traffic st now f :
  capture_inv st →
  from_target (ip (cap_pcs st)) (uint16 (port (cap_pcs st))) f = false →
  cap_pcs (handle_frame st (now, f)).1 = cap_pcs st ∧
  conns (cap_mem (handle_frame st (now, f)).1) = conns (cap_mem st) ∧
  payloads (cap_mem (handle_frame st (now, f)).1) = payloads (cap_mem st) ∧
  ∀ k, flow_chunks (handle_frame st (now, f)).1 k = flow_chunks st k.
Proof.
  intros Hinv Hfrom.
  destruct (read_frame f (cap_mem st) (cap_bufs st)) as [[packet m1] bufs1]
    eqn:Hread.
  destruct (handle_frame_spec st now f Hinv) as (_ & _ & _ & Hno & _).
  split_and!; [| | |intros k; apply Hno; unfold feeds; by rewrite Hfrom].
  all: rewrite (handle_frame_after st now f packet m1 bufs1 Hread).
  all: destruct (read_frame_inv st f packet m1 bufs1 Hinv Hread)
    as (_ & _ & _ & a & tail & -> & Ha & _).
  all: unfold after_packet.
  all: rewrite handlePacket_rejected
    by (by rewrite (accepted_decode _ _ _ _ tail)).
  all: cbn [fst snd cap_pcs cap_mem].
  all: unfold read_frame in Hread.
  all: by repeat case_match; simplify_eq.
Qed.

Lemma new_capture_inv ip0 port0 : capture_inv (new_capture ip0 port0).
Proof.
  constructor; unfold flow_record; simpl.
  - intros k p. by rewrite lookup_empty.
  - intros k1 k2 p. by rewrite lookup_empty.
  - intros k c. by rewrite lookup_empty.
  - intros k1 k2 c1 c2 a. by rewrite lookup_empty.
  - intros k c x. by rewrite lookup_empty.
  - intros a. by rewrite elem_of_nil.
Qed.

Lemma handle_frames_cons st ev evs :
  handle_frames st (ev :: evs) = handle_frames (handle_frame st ev).1 evs.
Proof. done. Qed.

Lemma handle_frames_app st evs evs' :
  handle_frames st (evs ++ evs') = handle_frames (handle_frames st evs) evs'.
Proof. apply foldl_app. Qed.

Lemma handle_frames_inv st evs :
  capture_inv st →
  capture_inv (handle_frames st evs) ∧
  ip (cap_pcs (handle_frames st evs)) = ip (cap_pcs st) ∧
  port (cap_pcs (handle_frames st evs)) = port (cap_pcs st).
Proof.
  revert st. induction evs as [|[now f] evs IH]; intros st Hinv; [done|].
  rewrite handle_frames_cons.
  destruct (handle_frame_spec st now f Hinv) as (Hinv' & Hip & Hport & _).
  destruct (IH _ Hinv') as (? & ? & ?). split_and!; congruence.
Qed.

Lemma handle_frame_chunks st now f k :
  capture_inv st →
  flow_chunks (handle_frame st (now, f)).1 k
  = spec_feed (ip (cap_pcs st)) (uint16 (port (cap_pcs st))) k
      (flow_chunks st k) f.
Proof.
  intros Hinv.
  destruct (handle_frame_spec st now f Hinv) as (_ & _ & _ & Hno & Hyes).
  unfold spec_feed.
  destruct (feeds _ _ k f) eqn:Hfeeds.
  - destruct (Hyes k Hfeeds) as (base & t & s' & _ & _ & _ & Hchunks). done.
  - by destruct (Hno k Hfeeds) as (_ & _ & ?).
Qed.

Lemma handle_frames_chunks st evs k :
  capture_inv st →
  flow_chunks (handle_frames st evs) k
  = foldl (spec_feed (ip (cap_pcs st)) (uint16 (port (cap_pcs st))) k)
      (flow_chunks st k) evs.*2.
Proof.
  revert st. induction evs as [|[now f] evs IH]; intros st Hinv; [done|].
  rewrite handle_frames_cons. cbn [fmap list_fmap snd foldl].
  destruct (handle_frame_spec st now f Hinv) as (Hinv' & Hip & Hport & _).
  rewrite (IH _ Hinv'), Hip, Hport. by rewrite handle_frame_chunks.
Qed.

Lemma spec_chunks_nil ip0 port16 k fs :
  existsb (feeds ip0 port16 k) fs = false → spec_chunks ip0 port16 k fs = [].
Proof.
  induction fs as [|f fs IH]; [done|]. cbn [existsb].
  intros [Hf Hfs]%orb_false_iff. unfold spec_chunks. cbn [omap list_omap].
  rewrite Hf. cbn [andb]. by apply IH.
Qed.

Lemma spec_feed_foldl ip0 port16 k o fs :
  foldl (spec_feed ip0 port16 k) o fs
  = if existsb (feeds ip0 port16 k) fs
    then Some (default [] o ++ spec_chunks ip0 port16 k fs)
    else o.
Proof.
  revert o. induction fs as [|f fs IH]; intros o; [done|].
  cbn [foldl existsb]. rewrite IH. unfold spec_feed.
  unfold spec_chunks. cbn [omap list_omap].
  destruct (feeds ip0 port16 k f) eqn:Hf; cbn [orb andb]; [|done].
  fold (spec_chunks ip0 port16 k fs).
  destruct (existsb _ fs) eqn:Hfs; cbn [default].
  - destruct o, (bool_decide _); simpl; f_equal;
      by rewrite <-?(assoc_L (++)), ?app_nil_r.
  - rewrite (spec_chunks_nil _ _ _ _ Hfs). by destruct (bool_decide _).
Qed.

Lemma flow_record_of_pointer st k p :
  capture_inv st → connections (cap_pcs st) !! k = Some p →
  is_Some (flow_record st k).
Proof.
  intros Hinv Hp. destruct (table_valid st Hinv k p Hp) as (c & Hc & _).
  exists c. unfold flow_record. by rewrite Hp.
Qed.

Lemma handle_frame_pointer st now f k p :
  capture_inv st →
  connections (cap_pcs st) !! k = Some p →
  connections (cap_pcs (handle_frame st (now, f)).1) !! k = Some p.
Proof.
  intros Hinv Hp.
  destruct (handle_frame_spec st now f Hinv) as (_ & _ & _ & Hno & Hyes).
  destruct (feeds (ip (cap_pcs st)) (uint16 (port (cap_pcs st))) k f) eqn:Hf.
  - destruct (Hyes k Hf) as (base & t & s' & Hmatch & _).
    destruct (flow_record_of_pointer st k p Hinv Hp) as [c Hc].
    rewrite Hc in Hmatch. destruct Hmatch as (_ & _ & ->). done.
  - destruct (Hno k Hf) as (-> & _). done.
Qed.

Lemma handle_frames_pointer st evs k p :
  capture_inv st →
  connections (cap_pcs st) !! k = Some p →
  connections (cap_pcs (handle_frames st evs)) !! k = Some p.
Proof.
  revert st. induction evs as [|[now f] evs IH]; intros st Hinv Hp; [done|].
  rewrite handle_frames_cons.
  destruct (handle_frame_spec st now f Hinv) as (Hinv' & _).
  apply IH; [done|]. by apply handle_frame_pointer.
Qed.

Lemma reachable_inv ip0 port0 evs :
  capture_inv (handle_frames (new_capture ip0 port0) evs) ∧
  ip (cap_pcs (handle_frames (new_capture ip0 port0) evs)) = ip0 ∧
  port (cap_pcs (handle_frames (new_capture ip0 port0) evs)) = port0.
Proof. apply (handle_frames_inv (new_capture ip0 port0)), new_capture_inv. Qed.


(** X16: of the frames accepted by the Capture Session, those with the same
    4-tuple accumulate their payloads, in capture order, in one Flow Record.
    Frames have the same key exactly when they have the same 4-tuple; the
    table holds a record under a key exactly when a frame from the target
    with that key was handled, and its chunks are the non-empty payloads of
    those frames; the pointer filed under a key, once there, is never
    replaced (the record is the one created by the first such frame); and a
    frame with another 4-tuple leaves the pointer, the fields of the record
    (its ports, times, chunk slice and the two address slices, that is where
    they point and not what they show) and the bytes of its chunks as they
    are. *)
Theorem flows_accumulate_by_tuple ip0 port0 :
  (∀ f tup, frame_key f = Some (tuple_key tup) ↔ frame_tuple f = Some tup) ∧
  (∀ evs k,
     flow_chunks (handle_frames (new_capture ip0 port0) evs) k
     = if existsb (feeds ip0 (uint16 port0) k) evs.*2
       then Some (spec_chunks ip0 (uint16 port0) k evs.*2)
       else None) ∧
  (∀ evs evs' k p,
     connections (cap_pcs (handle_frames (new_capture ip0 port0) evs)) !! k
       = Some p →
     connections
       (cap_pcs (handle_frames (new_capture ip0 port0) (evs ++ evs'))) !! k
       = Some p) ∧
  (∀ evs now f tup,
     frame_tuple f ≠ Some tup →
     connections
       (cap_pcs (handle_frame (handle_frames (new_capture ip0 port0) evs)
                   (now, f)).1) !! tuple_key tup
       = connections (cap_pcs (handle_frames (new_capture ip0 port0) evs))
           !! tuple_key tup ∧
     flow_record
       (handle_frame (handle_frames (new_capture ip0 port0) evs) (now, f)).1
       (tuple_key tup)
       = flow_record (handle_frames (new_capture ip0 port0) evs)
           (tuple_key tup) ∧
     flow_chunks
       (handle_frame (handle_frames (new_capture ip0 port0) evs) (now, f)).1
       (tuple_key tup)
       = flow_chunks (handle_frames (new_capture ip0 port0) evs)
           (tuple_key tup)).
Proof.
  split_and!.
  - apply frame_key_tuple.
  - intros evs k.
    rewrite handle_frames_chunks by apply new_capture_inv.
    by rewrite spec_feed_foldl.
  - intros evs evs' k p Hp. rewrite handle_frames_app.
    apply handle_frames_pointer; [apply reachable_inv|done].
  - intros evs now f tup Hk.
    destruct (reachable_inv ip0 port0 evs) as (Hinv & Hip & Hport).
    destruct (handle_frame_spec _ now f Hinv) as (_ & _ & _ & Hno & _).
    apply Hno. unfold feeds. apply andb_false_iff. right.
    apply bool_decide_eq_false. by rewrite frame_key_tuple.
Qed.



Lemma flows_accumulate_by_tuple_witness :
  connections
    (cap_pcs (handle_frame
                (handle_frames (new_capture "219.84.200.54" 6900)
                   one_reply_handled)
                (λ _, 2%Z, reply_to_other_peer)).1) !! tuple_key reply_tuple
    = connections
        (cap_pcs (handle_frames (new_capture "219.84.200.54" 6900)
                    one_reply_handled)) !! tuple_key reply_tuple ∧
  flow_record
    (handle_frame
       (handle_frames (new_capture "219.84.200.54" 6900) one_reply_handled)
       (λ _, 2%Z, reply_to_other_peer)).1 (tuple_key reply_tuple)
    = flow_record
        (handle_frames (new_capture "219.84.200.54" 6900) one_reply_handled)
        (tuple_key reply_tuple) ∧
  flow_chunks
    (handle_frame
       (handle_frames (new_capture "219.84.200.54" 6900) one_reply_handled)
       (λ _, 2%Z, reply_to_other_peer)).1 (tuple_key reply_tuple)
    = flow_chunks
        (handle_frames (new_capture "219.84.200.54" 6900) one_reply_handled)
        (tuple_key reply_tuple).
Proof.
  apply (proj2 (proj2 (proj2
           (flows_accumulate_by_tuple "219.84.200.54" 6900)))).
  vm_compute. discriminate.
Defined.


(** The two replies of the examples end up as the two chunks of one flow,
    and the reply to another peer, which reuses the first capture buffer,
    in a flow of its own. *)
Example two_flows_recorded :
  let st := handle_frames (new_capture "219.84.200.54" 6900)
              [(λ _, 1%Z, reply [x01]); (λ _, 2%Z, reply_to_other_peer);
               (λ _, 3%Z, reply [xc0; xa8])] in
  flow_chunks st reply_key = Some [[x01]; [xc0; xa8]] ∧
  size (connections (cap_pcs st)) = 2 ∧
  LastSeen <$> flow_record st reply_key = Some 3%Z ∧
  StartTime <$> flow_record st reply_key = Some 1%Z.
Proof. by vm_compute. Qed.

(** The ties of [GetIncomingDataSortedByLength_not_stable] arise in a
    capture: three replies with payloads of 1, 1 and 2 bytes are recorded in
    that order and come back from the sort as the 2-byte payload, then the
    second 1-byte payload, then the first. *)
Example ties_reversed_in_a_capture :
  let st := handle_frames (new_capture "219.84.200.54" 6900)
              [(λ _, 1%Z, reply [x01]); (λ _, 2%Z, reply [x02]);
               (λ _, 3%Z, reply [x03; x04])] in
  flow_chunks st reply_key = Some [[x01]; [x02]; [x03; x04]] ∧
  ∃ p, connections (cap_pcs st) !! reply_key = Some p ∧
       (λ rm, view (bytes rm.2) <$> view (payloads rm.2) rm.1)
         <$> GetIncomingDataSortedByLength (cap_mem st) p
       = Some [[x03; x04]; [x02]; [x01]].
Proof. split; [by vm_compute|]. exists 0. by vm_compute. Qed.

(** ** The consumer of completed flows *)

Section SessionFacts.

Context {Device CharacterServerInfo : Type}.
Variable IsValidInterface : Device → bool.
Variable Parse : list byte → list byte → option (list CharacterServerInfo).

Lemma decode_chunks_first_match bs pat pre d post res :
  Forall (λ x, Parse (view bs x) pat = None) pre →
  Parse (view bs d) pat = Some res →
  decode_chunks Parse bs pat (pre ++ d :: post)
  = (view bs <$> pre ++ [d], Some res).
Proof.
  intros Hpre Hd. induction Hpre as [|x pre Hx _ IH]; simpl.
  - by rewrite Hd.
  - by rewrite Hx, IH.
Qed.

Lemma decode_chunks_no_match bs pat l :
  Forall (λ x, Parse (view bs x) pat = None) l →
  decode_chunks Parse bs pat l = (view bs <$> l, None).
Proof.
  intros Hl. induction Hl as [|x l Hx _ IH]; simpl; [done|].
  by rewrite Hx, IH.
Qed.

(** C6: when a completed flow reaches the consumer, its sorted chunks are
    decoded one at a time in order, each from its own bytes; the first chunk
    whose decode is not nil ends the loop, its list is what StartCapture
    returns (after stopping the capture), and the chunks after it are not
    decoded. *)
Theorem StartCapture_first_match_wins (s : Session) c sp m' pre d post res :
  GetIncomingDataSortedByLength (cap_mem (capture s)) c = Some (sp, m') →
  view (payloads m') sp = pre ++ d :: post →
  Forall (λ x, Parse (view (bytes m') x) (pattern s) = None) pre →
  Parse (view (bytes m') d) (pattern s) = Some res →
  ∃ s',
    consume Parse s c = Some s' ∧
    StartCapture_result (Running s') = Some (Some res) ∧
    decoded s' = decoded s ++ (view (bytes m') <$> pre ++ [d]) ∧
    cancelled (cap_pcs (capture s')) = true.
Proof.
  intros Hsort Hview Hpre Hd.
  unfold consume, receive_connection. rewrite Hsort, Hview.
  rewrite (decode_chunks_first_match _ _ pre d post res) by done.
  eexists. split; [done|]. by simpl.
Qed.

(** When no chunk decodes, all of them are tried and StartCapture goes on
    waiting. *)
Lemma StartCapture_no_match (s : Session) c sp m' :
  consumer s = CWaiting →
  GetIncomingDataSortedByLength (cap_mem (capture s)) c = Some (sp, m') →
  Forall (λ x, Parse (view (bytes m') x) (pattern s) = None)
    (view (payloads m') sp) →
  ∃ s',
    consume Parse s c = Some s' ∧
    StartCapture_result (Running s') = None ∧
    decoded s' = decoded s ++ (view (bytes m') <$> view (payloads m') sp) ∧
    cancelled (cap_pcs (capture s')) = cancelled (cap_pcs (capture s)).
Proof.
  intros Hcons Hsort Hall.
  unfold consume, receive_connection. rewrite Hsort.
  rewrite decode_chunks_no_match by done.
  eexists. split; [done|]. by simpl.
Qed.

(** ** The notification channel *)

Lemma handlePacket_no_send now packet pcs m c :
  Send c ∉ (handlePacket now packet pcs m).2.
Proof.
  unfold handlePacket.
  destruct (ipv4Layer packet) as [ip4|]; [|by apply not_elem_of_nil].
  destruct (tcpLayer packet) as [tcp|]; [|by apply not_elem_of_nil].
  case_match; [by apply not_elem_of_nil|].
  destruct (connections pcs !! _); simpl;
    destruct (tcp_FIN tcp || tcp_RST tcp); simpl;
    repeat (apply not_elem_of_cons; split; [done|]); apply not_elem_of_nil.
Qed.

Lemma handlePacket_ignores_flags now packet pcs m fin rst :
  handlePacket now (with_flags fin rst packet) pcs m
  = handlePacket now packet pcs m.
Proof.
  unfold handlePacket, with_flags. simpl.
  destruct (ipv4Layer packet) as [ip4|]; [|done].
  destruct (tcpLayer packet) as [tcp|]; [|done]. simpl.
  case_match; [done|].
  destruct (connections pcs !! _); simpl;
    by destruct (tcp_FIN tcp || tcp_RST tcp), (fin || rst).
Qed.

Lemma handlePacket_cancelled now packet pcs m :
  cancelled (handlePacket now packet pcs m).1.1 = cancelled pcs.
Proof.
  unfold handlePacket.
  destruct (ipv4Layer packet) as [ip4|]; [|done].
  destruct (tcpLayer packet) as [tcp|]; [|done].
  case_match; [done|].
  by destruct (connections pcs !! _).
Qed.

Lemma perform_no_send effs out :
  (∀ c, Send c ∉ effs) → (perform effs out).1 = GSelect.
Proof.
  revert out. induction effs as [|[line|c] effs IH]; intros out Hno; simpl.
  - done.
  - apply IH. intros c Hc. apply (Hno c). by right.
  - destruct (Hno c). by left.
Qed.

Lemma never_notified_insert (gs : list Goroutine) i g :
  (∀ c rest, g ≠ GSend c rest) →
  (∀ i c rest, gs !! i ≠ Some (GSend c rest)) →
  ∀ j c rest, <[i := g]> gs !! j ≠ Some (GSend c rest).
Proof.
  intros Hg Hs j c rest.
  destruct (decide (i = j)) as [->|].
  - destruct (decide (j < length gs)).
    + rewrite list_lookup_insert_eq by done. naive_solver.
    + rewrite list_insert_ge by lia. apply Hs.
  - rewrite list_lookup_insert_ne by done. apply Hs.
Qed.

Lemma step_never_notified (s : Session) e p :
  never_notified (Running s) → step Parse s e = Some p → never_notified p.
Proof.
  intros [Hgs Hcons] Hstep. destruct e as [i ok|i ok|i now f|i| |i|]; simpl in Hstep.
  - destruct (goroutines s !! i) as [[]|]; try done.
    destruct ok; simplify_eq; simpl; split; try done.
    by apply never_notified_insert.
  - destruct (goroutines s !! i) as [[]|]; try done.
    destruct ok; simplify_eq; simpl; split; try done.
    by apply never_notified_insert.
  - destruct (goroutines s !! i) as [[]|]; try done.
    unfold handle_frame in Hstep.
    destruct (read_frame _ _ _) as [[packet m1] bufs1]. simpl in Hstep.
    pose proof (handlePacket_no_send now packet (cap_pcs (capture s)) m1) as Hno.
    pose proof (handlePacket_cancelled now packet (cap_pcs (capture s)) m1) as Hc.
    destruct (handlePacket _ _ _ _) as [[pcs' m'] effs]. simpl in *.
    pose proof (perform_no_send effs (stdout s) Hno) as Hperf.
    destruct (perform effs (stdout s)) as [g out]. simpl in *. subst g.
    simplify_eq. simpl. split.
    + by apply never_notified_insert.
    + rewrite Hc. done.
  - destruct (goroutines s !! i) as [[]|]; try done.
    destruct (cancelled (cap_pcs (capture s))) eqn:Hcanc; simplify_eq; simpl.
    split; [by apply never_notified_insert|]. by rewrite Hcanc.
  - simplify_eq. simpl. split; [done|]. destruct Hcons as [|[? ?]]; auto.
  - destruct (consumer s); [|done].
    destruct (goroutines s !! i) as [[]|] eqn:Hi; try done.
    by destruct (Hgs i c rest).
  - destruct (consumer s); [|done].
    destruct (cancelled _) eqn:Hc; simplify_eq; simpl. split; [done|]. by right.
Qed.

Lemma run_never_notified (p : Process) es :
  never_notified p → never_notified (run Parse p es).
Proof.
  revert p. induction es as [|e es IH]; intros p Hp; simpl; [done|].
  destruct p as [s|st s]; [|done].
  destruct (step Parse s e) as [p'|] eqn:Hstep; [|by apply IH].
  apply IH. by eapply step_never_notified.
Qed.

Lemma StartCapture_begin_never_notified loginServers devs a svcs name a' svcs' s0 :
  StartCapture_begin (CharacterServerInfo := CharacterServerInfo)
    IsValidInterface loginServers devs a svcs name = Capturing a' svcs' s0 →
  never_notified (Running s0).
Proof.
  unfold StartCapture_begin. intros Hbegin.
  repeat case_match; simplify_eq; simpl.
  all: split; [|by left].
  all: match goal with H : StartCaptureAllInterfaces _ _ _ = _ |- _ =>
         unfold StartCaptureAllInterfaces in H end.
  all: destruct devs; simplify_eq; intros i c rest;
         rewrite ?list_lookup_fmap, ?lookup_nil; try done.
  all: by destruct (filter _ _ !! i).
Qed.

Lemma receive_not_enabled (s : Session) i :
  never_notified (Running s) → step Parse s (EvReceive i) = None.
Proof.
  intros [Hgs _]. simpl. destruct (consumer s); [|done].
  destruct (goroutines s !! i) as [[]|] eqn:Hi; try done.
  by destruct (Hgs i c rest).
Qed.

(** C9: no value is ever sent on the connection-close notification channel.
    [handlePacket] sends nothing and does the same whatever the FIN and RST
    flags are; so in every run of a session started by StartCapture no
    goroutine ever stands in a send, the receive branch of the consumer can
    never be taken, and StartCapture is either still waiting or has returned
    nil after the cancellation signal. *)
Theorem connection_close_never_notified :
  (∀ now packet pcs m c, Send c ∉ (handlePacket now packet pcs m).2) ∧
  (∀ now packet pcs m fin rst,
     handlePacket now (with_flags fin rst packet) pcs m
     = handlePacket now packet pcs m) ∧
  (∀ loginServers devs a svcs name es,
     match StartCapture_begin (CharacterServerInfo := CharacterServerInfo)
             IsValidInterface loginServers devs a svcs name with
     | Capturing _ _ s0 =>
         never_notified (run Parse (Running s0) es) ∧
         (∀ s i, run Parse (Running s0) es = Running s →
                 step Parse s (EvReceive i) = None) ∧
         (StartCapture_result (run Parse (Running s0) es) = None ∨
          StartCapture_result (run Parse (Running s0) es) = Some None)
     | ReturnedNil _ _ | NilDereference => True
     end).
Proof.
  split_and!.
  - apply handlePacket_no_send.
  - apply handlePacket_ignores_flags.
  - intros loginServers devs a svcs name es.
    destruct (StartCapture_begin _ _ _ _ _ _) as [| |a' svcs' s0] eqn:Hbegin;
      [done..|].
    apply StartCapture_begin_never_notified in Hbegin.
    pose proof (run_never_notified _ es Hbegin) as Hrun.
    split_and!; [done| |].
    + intros s i Hs. rewrite Hs in Hrun. by apply receive_not_enabled.
    + destruct (run Parse (Running s0) es) as [s|st s]; simpl in *;
        destruct Hrun as [_ [->|[-> _]]]; auto.
Qed.

End SessionFacts.

Lemma StartCapture_first_match_wins_witness :
  ∃ s',
    consume toy_decoder session_delivering 0 = Some s' ∧
    StartCapture_result (Running s') = Some (Some [48]) ∧
    decoded s' = decoded session_delivering
                 ++ (view (bytes mem_spec_example) <$> [chunk 1 50] ++ [chunk 3 50]) ∧
    cancelled (cap_pcs (capture s')) = true.
Proof.
  apply (StartCapture_first_match_wins toy_decoder session_delivering 0
           (SMk 1 0 4 4)
           {| bytes := bytes mem_spec_example;
              payloads := payloads mem_spec_example
                ++ [[chunk 1 50; chunk 3 50; chunk 0 10; chunk 2 3]];
              conns := conns mem_spec_example |}
           [chunk 1 50] (chunk 3 50) [chunk 0 10; chunk 2 3] [48]).
  - by vm_compute.
  - reflexivity.
  - repeat constructor.
  - reflexivity.
Defined.

(** ** Failure of one interface *)

Section InterfaceFailure.

Context {CharacterServerInfo : Type}.
Variable Parse : list byte → list byte → option (list CharacterServerInfo).

(** [log.Fatal] in the goroutine of one interface ends the process: after a
    failed [pcap.OpenLive] or [SetBPFFilter] no event of any goroutine
    happens any more. *)
Lemma open_failure_is_fatal (s : Session) i es :
  goroutines s !! i = Some GOpenLive →
  ∃ s', run Parse (Running s) (EvOpenLive i false :: es) = Exited 1 s' ∧
        goroutines s' = goroutines s ∧ capture s' = capture s.
Proof.
  intros Hi. simpl. rewrite Hi. eexists. split; [by destruct es|done].
Qed.

Lemma filter_failure_is_fatal (s : Session) i es :
  goroutines s !! i = Some GSetBPFFilter →
  ∃ s', run Parse (Running s) (EvSetBPFFilter i false :: es) = Exited 1 s' ∧
        goroutines s' = goroutines s ∧ capture s' = capture s.
Proof.
  intros Hi. simpl. rewrite Hi. eexists. split; [by destruct es|done].
Qed.

End InterfaceFailure.

(** C4 (the code at the failing input): with two usable interfaces, when
    opening the first one fails the process exits with status 1; the second
    interface, whose device would open and whose filter would install, never
    gets to capture the reply that arrives on it, and the flow table stays
    empty.  Had the first device opened, the same reply is recorded. *)
Theorem one_interface_failure_stops_all_capture :
  match StartCapture_begin (λ _ : string, true) loginServers_default
          two_devices app_idle [] "Taiwan" with
  | Capturing _ _ s0 =>
      match run toy_decoder (Running s0)
              [EvOpenLive 0 false; EvOpenLive 1 true; EvSetBPFFilter 1 true;
               EvPacket 1 (λ _, 5%Z) (reply [xc0; xa8; x01])] with
      | Exited status s =>
          status = 1%Z ∧
          goroutines s = [GOpenLive; GOpenLive] ∧
          flow_chunks (capture s) reply_key = None
      | Running _ => False
      end ∧
      match run toy_decoder (Running s0)
              [EvOpenLive 0 true; EvOpenLive 1 true; EvSetBPFFilter 1 true;
               EvPacket 1 (λ _, 5%Z) (reply [xc0; xa8; x01])] with
      | Running s =>
          goroutines s = [GSetBPFFilter; GSelect] ∧
          flow_chunks (capture s) reply_key = Some [[xc0; xa8; x01]]
      | Exited _ _ => False
      end
  | _ => False
  end.
Proof. by vm_compute. Qed.

(** ** Stopping a capture *)

(** C8: StopCapture always returns true; without a capture service it
    leaves the App and the services as they are; with one it cancels the
    service and clears the reference and the capture flag, after which a
    further call changes nothing and returns true again. *)
Theorem StopCapture_idempotent (a : App) (svcs : list PacketCaptureService) :
  let '(r1, a1, svcs1, _) := StopCapture a svcs in
  let '(r2, a2, svcs2, _) := StopCapture a1 svcs1 in
  r1 = true ∧ r2 = true ∧
  packetCaptureService a1 = None ∧
  a2 = a1 ∧ svcs2 = svcs1 ∧
  match packetCaptureService a with
  | None => a1 = a ∧ svcs1 = svcs
  | Some p =>
      isCapturing a1 = false ∧ svcs1 = alter pcs_StopCapture p svcs
  end.
Proof.
  unfold StopCapture.
  destruct a as [cap [p|] ver]; simpl; by repeat split.
Qed.

(** ** Status rendering *)

Lemma string_app_inv_tail (a b c : string) : a +:+ c = b +:+ c → a = b.
Proof.
  assert (∀ a c, String.length (a +:+ c) = String.length a + String.length c)
    as Hlen.
  { clear. intros a c. induction a; simpl; auto. }
  revert b. induction a as [|x a IH]; intros [|y b] Heq; simpl in *.
  - done.
  - apply (f_equal String.length) in Heq.
    rewrite !Hlen in Heq. simpl in Heq. lia.
  - apply (f_equal String.length) in Heq.
    rewrite !Hlen in Heq. simpl in Heq. lia.
  - injection Heq as -> Heq. f_equal. by apply IH.
Qed.

Lemma mapPlayersToStatusText_other (n : Z) :
  n ≠ 1%Z → n ≠ 2%Z → n ≠ 3%Z →
  mapPlayersToStatusText n = "Unknown (" +:+ pretty n +:+ ")".
Proof.
  intros H1 H2 H3. unfold mapPlayersToStatusText.
  destruct n as [|p|p]; try done.
  destruct p as [[p|p|]|[p|p|]|]; done.
Qed.

(** C7: the rendering function is total on the integer codes (those a
    JavaScript number holds exactly, the safe integers): 1 gives the text
    for a comfortable load, 2 the text for crowded, 3 the text for full, and
    every other code gives the marker Unknown (code) that spells the code in
    decimal; no two codes are rendered alike, so none is lost. *)
Theorem mapPlayersToStatusText_total :
  mapPlayersToStatusText 1 = "順暢" ∧
  mapPlayersToStatusText 2 = "擁擠" ∧
  mapPlayersToStatusText 3 = "爆滿" ∧
  (∀ n : Z, safe_integer n → n ≠ 1%Z → n ≠ 2%Z → n ≠ 3%Z →
     mapPlayersToStatusText n = "Unknown (" +:+ pretty n +:+ ")") ∧
  (∀ n n' : Z, safe_integer n → safe_integer n' →
     mapPlayersToStatusText n = mapPlayersToStatusText n' → n = n').
Proof.
  split_and!; try done.
  - intros n _. apply mapPlayersToStatusText_other.
  - intros n n' _ _.
    destruct (decide (n = 1%Z)) as [->|]; [|destruct (decide (n = 2%Z)) as [->|];
      [|destruct (decide (n = 3%Z)) as [->|]]];
    (destruct (decide (n' = 1%Z)) as [->|]; [|destruct (decide (n' = 2%Z)) as [->|];
      [|destruct (decide (n' = 3%Z)) as [->|]]]);
    rewrite ?(mapPlayersToStatusText_other n), ?(mapPlayersToStatusText_other n')
      by done;
    try done.
    intros Heq. simpl in Heq. simplify_eq.
    apply string_app_inv_tail in Heq. by apply (inj pretty).
Qed.

Lemma mapPlayersToStatusText_total_witness :
  mapPlayersToStatusText 7 = "Unknown (7)" ∧
  (mapPlayersToStatusText 7 = mapPlayersToStatusText 4000 → 7%Z = 4000%Z).
Proof.
  destruct mapPlayersToStatusText_total as (_ & _ & _ & Hother & Hinj).
  split.
  - rewrite (Hother 7%Z) by (unfold safe_integer; lia). reflexivity.
  - apply (Hinj 7%Z 4000%Z); unfold safe_integer; lia.
Defined.

(** ** Start-up: the merged server list *)

Lemma merge_server_cons (s : LoginServer) (rest : list LoginServer) (c : LoginServer) :
  merge_server (s :: rest) c
  = if bool_decide (Name c = Name s) then c :: rest else s :: merge_server rest c.
Proof.
  unfold merge_server. simpl. case_bool_decide; [done|].
  by destruct (server_index rest (Name c)).
Qed.

Lemma find_server_merge_server (ls : list LoginServer) (c : LoginServer) (n : string) :
  find_server (merge_server ls c) n
  = if bool_decide (Name c = n) then Some c else find_server ls n.
Proof.
  induction ls as [|s rest IH]; [done|].
  rewrite merge_server_cons.
  destruct (bool_decide_reflect (Name c = Name s)) as [Hsc|Hsc]; simpl.
  - repeat case_bool_decide; congruence.
  - rewrite IH. repeat case_bool_decide; congruence.
Qed.

Lemma last_filter_snoc {A} (P : A → Prop) `{!∀ x, Decision (P x)} (l : list A) x :
  last (filter P (l ++ [x]))
  = if decide (P x) then Some x else last (filter P l).
Proof.
  rewrite filter_app. cbn [filter list_filter].
  case_decide; [by rewrite last_snoc|by rewrite app_nil_r].
Qed.

Lemma find_server_foldl_merge (ls cs : list LoginServer) (n : string) :
  find_server (foldl merge_server ls cs) n
  = match last (filter (λ c, Name c = n) cs) with
    | Some c => Some c
    | None => find_server ls n
    end.
Proof.
  induction cs as [|c cs IH] using rev_ind; [done|].
  rewrite foldl_snoc, find_server_merge_server, last_filter_snoc, IH.
  case_bool_decide; by case_decide.
Qed.

(** X1: after start-up, looking a name up in the server list gives the last
    custom server with that name, and the entry the list had before when no
    custom server has it; a failed or empty load changes nothing. *)
Theorem startup_lookup (ls : list LoginServer) (loaded : option (list LoginServer))
  (n : string) :
  find_server (startup ls loaded) n
  = match last (filter (λ c, Name c = n) (default [] loaded)) with
    | Some c => Some c
    | None => find_server ls n
    end.
Proof.
  destruct loaded as [cs|]; [|done]. unfold startup.
  destruct (Nat.eqb_spec (length cs) 0) as [Hlen|_].
  - apply nil_length_inv in Hlen. by subst.
  - apply find_server_foldl_merge.
Qed.

Lemma names_merge_server (ls : list LoginServer) (c : LoginServer) :
  Name <$> merge_server ls c
  = if bool_decide (Name c ∈ Name <$> ls) then Name <$> ls
    else (Name <$> ls) ++ [Name c].
Proof.
  induction ls as [|s rest IH]; [done|].
  rewrite merge_server_cons. rewrite fmap_cons.
  destruct (bool_decide_reflect (Name c = Name s)) as [Hsc|Hsc].
  - rewrite bool_decide_eq_true_2 by (apply elem_of_cons; by left).
    rewrite fmap_cons. by rewrite Hsc.
  - rewrite fmap_cons, IH.
    destruct (bool_decide_reflect (Name c ∈ Name <$> rest)) as [Hin|Hin].
    + by rewrite bool_decide_eq_true_2 by (apply elem_of_cons; by right).
    + rewrite bool_decide_eq_false_2; [done|].
      rewrite elem_of_cons. intros [?|?]; [congruence|done].
Qed.

Lemma names_foldl_merge (ls cs : list LoginServer) :
  (Name <$> ls) `prefix_of` (Name <$> foldl merge_server ls cs) ∧
  length ls ≤ length (foldl merge_server ls cs) ≤ length ls + length cs ∧
  (NoDup (Name <$> ls) → NoDup (Name <$> foldl merge_server ls cs)).
Proof.
  induction cs as [|c cs (Hpre & Hlen & Hnodup)] using rev_ind.
  { simpl. split_and!; [done|lia|lia|done]. }
  rewrite foldl_snoc, length_app. simpl.
  pose proof (names_merge_server (foldl merge_server ls cs) c) as Hnames.
  pose proof (f_equal length Hnames) as Hl.
  destruct (bool_decide_reflect (Name c ∈ Name <$> foldl merge_server ls cs))
    as [Hin|Hin]; rewrite Hnames; rewrite ?length_app, !length_fmap in Hl.
  - split_and!; [done|lia|lia|done].
  - simpl in Hl.
    split_and!; [by apply prefix_app_r|lia|lia|].
    intros Hls. apply NoDup_app. split_and!; [by apply Hnodup| |apply NoDup_singleton].
    intros x Hx ->%list_elem_of_singleton. done.
Qed.

(** X2: start-up never drops or moves an entry of the list: the names the
    list had stay where they were, new names come after them, and the list
    grows by at most the number of custom servers. *)
Theorem startup_keeps_entries (ls : list LoginServer)
  (loaded : option (list LoginServer)) :
  (Name <$> ls) `prefix_of` (Name <$> startup ls loaded) ∧
  length ls ≤ length (startup ls loaded)
            ≤ length ls + length (default [] loaded).
Proof.
  destruct loaded as [cs|]; simpl; [|split; [done|lia]].
  destruct (Nat.eqb_spec (length cs) 0); [split; [done|lia]|].
  destruct (names_foldl_merge ls cs) as (? & ? & _). done.
Qed.

(** X3: if no two servers of the list had the same name before start-up,
    none have after it, whatever names the custom servers repeat. *)
Theorem startup_names_unique (ls : list LoginServer)
  (loaded : option (list LoginServer)) :
  NoDup (Name <$> ls) → NoDup (Name <$> startup ls loaded).
Proof.
  intros Hls. destruct loaded as [cs|]; simpl; [|done].
  destruct (Nat.eqb_spec (length cs) 0); [done|].
  by apply names_foldl_merge.
Qed.

Lemma startup_names_unique_witness :
  NoDup (Name <$> startup loginServers_default (Some custom_servers)).
Proof.
  apply (startup_names_unique loginServers_default (Some custom_servers)).
  apply (bool_decide_unpack _). by vm_compute.
Defined.

(** ** The front end's selection and the back end's lookup *)

Lemma find_server_find (servers : list LoginServer) (name : string) :
  find_server servers name
  = List.find (λ server, bool_decide (Name server = name)) servers.
Proof.
  induction servers as [|s rest IH]; [done|]. simpl. by rewrite IH.
Qed.

Lemma find_server_found (servers : list LoginServer) (name : string) s :
  find_server servers name = Some s → find_server servers (Name s) = Some s.
Proof.
  induction servers as [|x rest IH]; [done|]. simpl.
  case_bool_decide as Hx.
  - intros [= <-]. by rewrite bool_decide_eq_true_2.
  - intros Hs. case_bool_decide as Hx'; [|by apply IH].
    exfalso. apply IH in Hs as Hs'. clear IH.
    assert (Name s = name) as Hn.
    { clear -Hs. induction rest as [|y rest IH]; [done|]. simpl in Hs.
      case_bool_decide; [by simplify_eq|auto]. }
    congruence.
Qed.

(** X4: the server that StartCapture looks up for the name the front end
    sends is the very server the front end has selected, whether it is the
    first of the list or one picked by name, and also when names repeat. *)
Theorem selected_server_is_capture_target (servers : list LoginServer)
  (names : list string) (s : LoginServer) :
  selected_after servers names = Some s →
  find_server servers (Name s) = Some s.
Proof.
  unfold selected_after.
  induction names as [|n names IH] using rev_ind; simpl.
  - destruct servers as [|x rest]; [done|]. intros [= <-]. simpl.
    by rewrite bool_decide_eq_true_2.
  - rewrite foldl_snoc. unfold handleServerChange at 1.
    rewrite <-find_server_find.
    destruct (find_server servers n) as [s'|] eqn:Hfind; [|done].
    intros [= <-]. by eapply find_server_found.
Qed.

Lemma selected_server_is_capture_target_witness :
  find_server (startup loginServers_default (Some custom_servers))
    (Name korea_server) = Some korea_server.
Proof.
  apply (selected_server_is_capture_target
           (startup loginServers_default (Some custom_servers))
           ["Nowhere"; "Korea"; "Elsewhere"] korea_server).
  reflexivity.
Defined.

(** ** The capture control surface under any sequence of calls *)

Section CallFacts.

Context {Device CharacterServerInfo : Type}.
Variable IsValidInterface : Device → bool.
Variable loginServers : list LoginServer.

Lemma app_stopped_consistent a svcs : app_stopped a svcs → app_consistent a svcs.
Proof.
  intros (Hflag & Hptr & Hall). unfold app_consistent. rewrite Hflag, Hptr.
  split_and!.
  - split; [done|]. by intros [? [=]].
  - done.
  - intros i pcs Hi Hlive. exfalso.
    rewrite Forall_forall in Hall. apply list_elem_of_lookup_2 in Hi.
    rewrite (Hall _ Hi) in Hlive. done.
Qed.

Lemma stop_current a svcs p :
  app_consistent a svcs → packetCaptureService a = Some p →
  app_stopped {| isCapturing := false; packetCaptureService := None;
                 appVersion := appVersion a |}
              (alter pcs_StopCapture p svcs).
Proof.
  intros (_ & _ & Hlive) Hp. split_and!; [done..|].
  apply Forall_forall. intros pcs [i Hi]%list_elem_of_lookup.
  destruct (decide (i = p)) as [->|Hne].
  - rewrite list_lookup_alter_eq in Hi.
    destruct (svcs !! p); simplify_eq/=. done.
  - rewrite list_lookup_alter_ne in Hi by done.
    destruct (cancelled pcs) eqn:Hc; [done|].
    specialize (Hlive i pcs Hi Hc). congruence.
Qed.

Lemma idle_stopped a svcs :
  app_consistent a svcs → packetCaptureService a = None → app_stopped a svcs.
Proof.
  intros (Hflag & _ & Hlive) Hp. split_and!; [|done|].
  - destruct (isCapturing a); [|done].
    destruct (proj1 Hflag eq_refl) as [? ?]. congruence.
  - apply Forall_forall. intros pcs [i Hi]%list_elem_of_lookup.
    destruct (cancelled pcs) eqn:Hc; [done|].
    specialize (Hlive i pcs Hi Hc). congruence.
Qed.

Lemma call_consistent a svcs c :
  app_consistent a svcs →
  ∃ a' svcs', call CharacterServerInfo IsValidInterface loginServers (Some (a, svcs)) c = Some (a', svcs') ∧
    app_consistent a' svcs' ∧
    (only_stops loginServers c = true → app_stopped a' svcs').
Proof.
  intros Hinv. destruct c as [|name devs]; simpl.
  - unfold StopCapture. destruct (packetCaptureService a) as [p|] eqn:Hp.
    + eexists _, _. split; [done|].
      pose proof (stop_current a svcs p Hinv Hp).
      split; [by apply app_stopped_consistent|done].
    + eexists _, _. split; [done|]. split; [done|]. intros _.
      by apply idle_stopped.
  - unfold StartCapture_begin.
    assert (∃ a1 svcs1,
      (if isCapturing a || bool_decide (is_Some (packetCaptureService a)) then
         match packetCaptureService a with
         | Some p =>
             Some ({| isCapturing := false; packetCaptureService := None;
                      appVersion := appVersion a |},
                   alter pcs_StopCapture p svcs)
         | None => None
         end
       else Some (a, svcs)) = Some (a1, svcs1) ∧ app_stopped a1 svcs1)
      as (a1 & svcs1 & -> & Hstopped).
    { destruct (packetCaptureService a) as [p|] eqn:Hp.
      - rewrite bool_decide_eq_true_2, orb_true_r by eauto.
        eexists _, _. split; [done|]. by apply stop_current.
      - pose proof (idle_stopped a svcs Hinv Hp) as Hs.
        rewrite (proj1 Hs), bool_decide_eq_false_2 by (by intros [? [=]]).
        simpl. eauto. }
    destruct (find_server loginServers name) as [target|] eqn:Hfind.
    + destruct (StartCaptureAllInterfaces _ _ _) as [gs out].
      eexists _, _. split; [done|]. split.
      * destruct Hstopped as (_ & _ & Hall). split_and!; simpl.
        -- split; eauto.
        -- intros p [= <-]. rewrite length_app. simpl. lia.
        -- intros i pcs Hi Hc. f_equal.
           destruct (decide (i < length svcs1)) as [Hlt|Hge].
           ++ rewrite lookup_app_l in Hi by done.
              rewrite Forall_forall in Hall.
              apply list_elem_of_lookup_2 in Hi. rewrite (Hall _ Hi) in Hc. done.
           ++ apply lookup_lt_Some in Hi. rewrite length_app in Hi.
              simpl in Hi. lia.
      * rewrite bool_decide_eq_false_2; [done|]. congruence.
    + eexists _, _. split; [done|].
      split; [by apply app_stopped_consistent|done].
Qed.

Lemma calls_consistent (calls : list (Call Device)) :
  ∃ a svcs, foldl (call CharacterServerInfo IsValidInterface loginServers) (Some (NewApp, [])) calls = Some (a, svcs) ∧
    app_consistent a svcs.
Proof.
  induction calls as [|c calls (a & svcs & Heq & Hinv)] using rev_ind.
  - exists NewApp, []. split; [done|]. apply app_stopped_consistent.
    by split_and!.
  - rewrite foldl_snoc, Heq.
    destruct (call_consistent a svcs c Hinv) as (a' & svcs' & ? & ? & _).
    eauto.
Qed.

(** X5: whatever calls of StopCapture and StartCapture the front end makes
    after NewApp, with any names and any answers of the device enumeration,
    no call dereferences a nil service, the capture flag is set exactly when
    the App holds a service, and every service that is not cancelled is the
    one the App holds: at most one capture is live. *)
Theorem calls_keep_app_consistent (calls : list (Call Device)) :
  match foldl (call CharacterServerInfo IsValidInterface loginServers) (Some (NewApp, [])) calls with
  | Some (a, svcs) => app_consistent a svcs
  | None => False
  end.
Proof. by destruct (calls_consistent calls) as (a & svcs & -> & ?). Qed.

(** X6: after a call of StopCapture, or of StartCapture with a name that no
    server has, no capture is live: the flag and the service of the App are
    cleared and every service ever started is cancelled, the earlier ones
    too. *)
Theorem stopping_call_leaves_no_capture (calls : list (Call Device)) (c : Call Device) :
  only_stops loginServers c = true →
  match foldl (call CharacterServerInfo IsValidInterface loginServers) (Some (NewApp, [])) (calls ++ [c]) with
  | Some (a, svcs) =>
      isCapturing a = false ∧ packetCaptureService a = None ∧
      Forall (λ pcs, cancelled pcs = true) svcs
  | None => False
  end.
Proof.
  intros Hc. rewrite foldl_snoc.
  destruct (calls_consistent calls) as (a & svcs & -> & Hinv).
  destruct (call_consistent a svcs c Hinv) as (a' & svcs' & -> & _ & Hs).
  by apply Hs.
Qed.

End CallFacts.

Lemma stopping_call_leaves_no_capture_witness :
  match foldl (call nat (λ _ : string, true) loginServers_default)
          (Some (NewApp, []))
          ([CallStartCapture "Taiwan" two_devices;
            CallStartCapture "Taiwan - Zero" None]
           ++ [CallStartCapture "Korea" two_devices]) with
  | Some (a, svcs) =>
      isCapturing a = false ∧ packetCaptureService a = None ∧
      Forall (λ pcs, cancelled pcs = true) svcs
  | None => False
  end.
Proof.
  apply (stopping_call_leaves_no_capture (CharacterServerInfo := nat)
           (λ _ : string, true) loginServers_default
           [CallStartCapture "Taiwan" two_devices;
            CallStartCapture "Taiwan - Zero" None]
           (CallStartCapture "Korea" two_devices)).
  reflexivity.
Defined.

(** ** The ordering of the candidates and the stable sort *)

Lemma spec_stable_insert_perm x l : spec_stable_insert x l ≡ₚ x :: l.
Proof.
  induction l as [|y l IH]; simpl; [done|].
  case_match; [done|]. rewrite IH. apply Permutation_swap.
Qed.

Lemma spec_stable_insert_sorted x l :
  StronglySorted longer_eq l → StronglySorted longer_eq (spec_stable_insert x l).
Proof.
  induction 1 as [|y l Hl IH Hy]; simpl; [repeat constructor|].
  destruct (Nat.ltb_spec (len y) (len x)) as [Hlt|Hge].
  - apply SSorted_cons; [by apply SSorted_cons|].
    apply Forall_cons. split; [unfold longer_eq; lia|].
    eapply Forall_impl; [exact Hy|]. unfold longer_eq. intros z ?. lia.
  - apply SSorted_cons; [done|].
    rewrite spec_stable_insert_perm. by apply Forall_cons.
Qed.

Lemma spec_stable_sort_desc_perm l : spec_stable_sort_desc l ≡ₚ l.
Proof.
  unfold spec_stable_sort_desc.
  induction l as [|x l IH] using rev_ind; [done|].
  rewrite foldl_snoc, spec_stable_insert_perm, IH.
  by rewrite Permutation_app_comm.
Qed.

Lemma spec_stable_sort_desc_sorted l :
  StronglySorted longer_eq (spec_stable_sort_desc l).
Proof.
  unfold spec_stable_sort_desc.
  induction l as [|x l IH] using rev_ind; [constructor|].
  rewrite foldl_snoc. by apply spec_stable_insert_sorted.
Qed.

Lemma sort_list_without_ties l :
  NoDup (len <$> l) → sort_list l = spec_stable_sort_desc l.
Proof.
  intros Hnd.
  apply (StronglySorted_unique_strong longer_eq).
  - intros x1 x2 Hx1 Hx2 H12 H21.
    rewrite sort_list_perm in Hx1. rewrite spec_stable_sort_desc_perm in Hx2.
    apply list_elem_of_lookup in Hx1 as [i Hi].
    apply list_elem_of_lookup in Hx2 as [j Hj].
    assert (i = j) as ->; [|congruence].
    apply (NoDup_lookup _ _ _ (len x1) Hnd).
    + by rewrite list_lookup_fmap, Hi.
    + rewrite list_lookup_fmap, Hj. simpl. f_equal.
      unfold longer_eq in *. lia.
  - apply sort_list_sorted.
  - apply spec_stable_sort_desc_sorted.
  - by rewrite sort_list_perm, spec_stable_sort_desc_perm.
Qed.

Lemma StronglySorted_lookup_lt {A} (R : relation A) l i j x y :
  StronglySorted R l → i < j → l !! i = Some x → l !! j = Some y → R x y.
Proof.
  intros Hl. revert i j. induction Hl as [|z l Hl IH Hz]; intros i j Hij Hi Hj.
  { done. }
  destruct j as [|j]; [lia|]. simpl in Hj.
  destruct i as [|i]; simpl in Hi.
  - simplify_eq. rewrite Forall_forall in Hz.
    apply Hz. by eapply list_elem_of_lookup_2.
  - apply (IH i j); [lia|done..].
Qed.

Lemma cswap_sorted l i j :
  StronglySorted longer_eq l → i < j → cswap l i j = l.
Proof.
  intros Hl Hij. unfold cswap.
  destruct (l !! i) as [x|] eqn:Hi; [|done].
  destruct (l !! j) as [y|] eqn:Hj; [|done].
  pose proof (StronglySorted_lookup_lt _ _ _ _ _ _ Hl Hij Hi Hj) as Hxy.
  unfold longer_eq in Hxy.
  destruct (Nat.ltb_spec (len x) (len y)); [lia|done].
Qed.

Lemma inner_list_sorted k i j l :
  StronglySorted longer_eq l → i < j → inner_list k i j l = l.
Proof.
  intros Hl. revert j. induction k as [|k IH]; intros j Hij; simpl; [done|].
  rewrite cswap_sorted by done. apply IH. lia.
Qed.

Lemma outer_list_sorted k i l :
  StronglySorted longer_eq l → outer_list k i l = l.
Proof.
  intros Hl. revert i. induction k as [|k IH]; intros i; simpl; [done|].
  rewrite inner_list_sorted by (done || lia). apply IH.
Qed.

Lemma GetIncomingDataSortedByLength_view m c conn :
  conns m !! c = Some conn →
  wf_slice (payloads m) (IncomingData conn) = true →
  ∃ r m',
    GetIncomingDataSortedByLength m c = Some (r, m') ∧
    view (payloads m') r = sort_list (view (payloads m) (IncomingData conn)).
Proof.
  intros Hc Hwf. rewrite (GetIncomingDataSortedByLength_eq m c conn) by done.
  destruct (Nat.eqb_spec (len (IncomingData conn)) 0) as [Hn|Hn].
  - exists SNil, m. split; [done|].
    apply view_length in Hwf. rewrite Hn in Hwf.
    apply nil_length_inv in Hwf. by rewrite Hwf.
  - eexists _, _. split; [done|]. cbn [payloads].
    apply view_whole.
    + by rewrite list_lookup_middle.
    + rewrite sort_list_length. by apply view_length.
Qed.

(** X7: when no two chunks of a Connection have the same length,
    GetIncomingDataSortedByLength returns them in the very order of a stable
    descending sort by length; the two can differ only where lengths tie. *)
Theorem GetIncomingDataSortedByLength_stable_without_ties m c conn :
  conns m !! c = Some conn →
  wf_slice (payloads m) (IncomingData conn) = true →
  NoDup (len <$> view (payloads m) (IncomingData conn)) →
  ∃ r m',
    GetIncomingDataSortedByLength m c = Some (r, m') ∧
    view (payloads m') r
      = spec_stable_sort_desc (view (payloads m) (IncomingData conn)).
Proof.
  intros Hc Hwf Hnd.
  destruct (GetIncomingDataSortedByLength_view m c conn Hc Hwf)
    as (r & m' & Hget & Hview).
  exists r, m'. split; [done|]. rewrite Hview. by apply sort_list_without_ties.
Qed.

Lemma GetIncomingDataSortedByLength_stable_without_ties_witness :
  ∃ r m',
    GetIncomingDataSortedByLength mem_windows 0 = Some (r, m') ∧
    view (payloads m') r = [chunk 1 5; chunk 2 3; chunk 0 2].
Proof.
  apply (GetIncomingDataSortedByLength_stable_without_ties mem_windows 0
           (set_IncomingData (SMk 0 0 3 3) conn_ties)).
  - reflexivity.
  - reflexivity.
  - apply (bool_decide_unpack _). by vm_compute.
Defined.

(** X8: a Connection whose chunks already are in descending order of length
    gets them back in the order it holds them, chunks of equal length
    included: the sort moves nothing that is in place. *)
Theorem GetIncomingDataSortedByLength_keeps_descending_input m c conn :
  conns m !! c = Some conn →
  wf_slice (payloads m) (IncomingData conn) = true →
  StronglySorted longer_eq (view (payloads m) (IncomingData conn)) →
  ∃ r m',
    GetIncomingDataSortedByLength m c = Some (r, m') ∧
    view (payloads m') r = view (payloads m) (IncomingData conn).
Proof.
  intros Hc Hwf Hsorted.
  destruct (GetIncomingDataSortedByLength_view m c conn Hc Hwf)
    as (r & m' & Hget & Hview).
  exists r, m'. split; [done|]. rewrite Hview. by apply outer_list_sorted.
Qed.

Lemma GetIncomingDataSortedByLength_keeps_descending_input_witness :
  ∃ r m',
    GetIncomingDataSortedByLength mem_windows 1 = Some (r, m') ∧
    view (payloads m') r = [chunk 1 5; chunk 2 3].
Proof.
  apply (GetIncomingDataSortedByLength_keeps_descending_input mem_windows 1
           (set_IncomingData (SMk 0 1 2 2) conn_ties)).
  - reflexivity.
  - reflexivity.
  - simpl. repeat constructor; unfold longer_eq; simpl; lia.
Defined.

(** ** Times and fields of the Flow Records *)

Lemma handle_frame_times st now f k :
  capture_inv st →
  flow_times (handle_frame st (now, f)).1 k
  = spec_times (ip (cap_pcs st)) (uint16 (port (cap_pcs st))) k
      (flow_times st k) (now, f).
Proof.
  intros Hinv.
  destruct (handle_frame_spec st now f Hinv) as (_ & _ & _ & Hno & Hyes).
  unfold spec_times, flow_times. simpl.
  destruct (feeds _ _ k f) eqn:Hfeeds.
  - destruct (Hyes k Hfeeds) as (base & t & s' & Hmatch & -> & _). simpl.
    destruct (flow_record st k) as [c|]; simpl.
    + by destruct Hmatch as (-> & -> & _).
    + by destruct Hmatch as (_ & -> & _ & _ & ->).
  - by destruct (Hno k Hfeeds) as (_ & -> & _).
Qed.

Lemma handle_frames_times st evs k :
  capture_inv st →
  flow_times (handle_frames st evs) k
  = foldl (spec_times (ip (cap_pcs st)) (uint16 (port (cap_pcs st))) k)
      (flow_times st k) evs.
Proof.
  intros Hinv. induction evs as [|[now f] evs IH] using rev_ind; [done|].
  rewrite handle_frames_app, foldl_snoc, <-IH. simpl.
  destruct (handle_frames_inv st evs Hinv) as (Hinv' & <- & <-).
  by apply handle_frame_times.
Qed.

(** X9: the start time of a Flow Record is the first reading of the clock
    made for the first frame of its flow and never changes afterwards; its
    last-activity time is the reading made for the latest frame of the flow
    (the third reading when that frame is also the first), whether or not
    the frame carries a payload.  Frames of other flows change neither. *)
Theorem flow_times_follow_frames ip0 port0 evs k :
  flow_times (handle_frames (new_capture ip0 port0) evs) k
  = foldl (spec_times ip0 (uint16 port0) k) None evs.
Proof. apply (handle_frames_times (new_capture ip0 port0)), new_capture_inv. Qed.

Lemma handle_frame_record_fields st now f k c :
  capture_inv st →
  (∀ k c, flow_record st k = Some c →
     IsFinished c = false ∧
     kSrcIP k = ip (cap_pcs st) ∧ kSrcPort k = uint16 (port (cap_pcs st))) →
  flow_record (handle_frame st (now, f)).1 k = Some c →
  IsFinished c = false ∧
  kSrcIP k = ip (cap_pcs st) ∧ kSrcPort k = uint16 (port (cap_pcs st)).
Proof.
  intros Hinv Hold.
  destruct (handle_frame_spec st now f Hinv) as (_ & _ & _ & Hno & Hyes).
  destruct (feeds (ip (cap_pcs st)) (uint16 (port (cap_pcs st))) k f)
    eqn:Hfeeds.
  - destruct (Hyes k Hfeeds) as (base & t & s' & Hmatch & -> & _).
    intros [= <-]. simpl.
    assert (kSrcIP k = ip (cap_pcs st) ∧
            kSrcPort k = uint16 (port (cap_pcs st))) as Hsrc.
    { unfold feeds, from_target, frame_key in Hfeeds.
      destruct (frame_ips f) as [[src dst]|], (f_tcp f) as [t'|]; try done.
      apply andb_true_iff in Hfeeds as [Hft Hk].
      apply andb_true_iff in Hft as [Hip Hport].
      apply bool_decide_eq_true in Hk, Hip, Hport.
      simplify_eq/=. done. }
    split; [|done].
    destruct (flow_record st k) as [c0|] eqn:Hrec.
    + destruct Hmatch as (-> & _). by apply (Hold k).
    + by destruct Hmatch as (_ & _ & _ & -> & _).
  - destruct (Hno k Hfeeds) as (_ & -> & _). apply Hold.
Qed.

Lemma handle_frames_record_fields ip0 port0 evs k c :
  flow_record (handle_frames (new_capture ip0 port0) evs) k = Some c →
  IsFinished c = false ∧ kSrcIP k = ip0 ∧ kSrcPort k = uint16 port0.
Proof.
  revert k c. induction evs as [|[now f] evs IH] using rev_ind; intros k c.
  { unfold flow_record. simpl. by rewrite lookup_empty. }
  rewrite handle_frames_app. simpl.
  destruct (reachable_inv ip0 port0 evs) as (Hinv & Hip & Hport).
  intros Hrec.
  pose proof (handle_frame_record_fields _ now f k c Hinv) as Hstep.
  rewrite Hip, Hport in Hstep. by apply Hstep.
Qed.

(** No byte array gets shorter when a frame is read and handled: a buffer
    that is reused keeps what lies beyond the frame, and [handlePacket]
    writes to a new array only. *)
Lemma handle_frame_arrays_grow st now f a :
  capture_inv st →
  length (array (bytes (cap_mem st)) a)
  ≤ length (array (bytes (cap_mem (handle_frame st (now, f)).1)) a).
Proof.
  intros Hinv.
  destruct (read_frame f (cap_mem st) (cap_bufs st)) as [[packet m1] bufs1]
    eqn:Hread.
  rewrite (handle_frame_after st now f packet m1 bufs1 Hread).
  assert (length (array (bytes (cap_mem st)) a) ≤ length (array (bytes m1) a))
    as Hread_grow.
  { assert (length (array (bytes (cap_mem st)) a)
            ≤ length (array (bytes (cap_mem st) ++ [frame_data f]) a)) as Hfresh.
    { unfold array. destruct (bytes (cap_mem st) !! a) as [arr|] eqn:Harr.
      - by rewrite (lookup_app_l_Some _ _ _ _ Harr).
      - simpl. lia. }
    unfold read_frame in Hread.
    destruct (f_reuse f) as [b|];
      [destruct (bool_decide_reflect (b ∈ cap_bufs st))|];
      injection Hread as _ <- _; cbn [bytes]; try done.
    unfold array. destruct (decide (a = b)) as [->|Hne].
    - destruct (bytes (cap_mem st) !! b) as [arr|] eqn:Harr.
      + rewrite list_lookup_insert_eq by eauto using lookup_lt_Some.
        simpl. rewrite length_app, length_drop. lia.
      + simpl. lia.
    - by rewrite list_lookup_insert_ne. }
  destruct (read_frame_inv st f packet m1 bufs1 Hinv Hread)
    as (Hinv1 & _ & _ & b & tail & -> & Hb & Hbody & Hwf).
  set (st1 := {| cap_pcs := cap_pcs st; cap_mem := m1; cap_bufs := bufs1 |}) in *.
  etrans; [exact Hread_grow|].
  destruct (accepted (cap_pcs st) m1 (decode_frame f b)) eqn:Hacc.
  - destruct (ipv4Layer (decode_frame f b)) as [ip4|] eqn:Hip;
      [|by unfold accepted in Hacc; rewrite Hip in Hacc].
    destruct (tcpLayer (decode_frame f b)) as [tcp|] eqn:Htcp;
      [|by unfold accepted in Hacc; rewrite Hip, Htcp in Hacc].
    destruct (decode_frame_layers (bytes m1) f b tail ip4 tcp Hb Hip Htcp)
      as (_ & Hpayload & _).
    destruct (handlePacket_inv st1 now (decode_frame f b) ip4 tcp)
      as (_ & _ & _ & _ & base & t & s' & _ & _ & _ & _ & [ext Hext]);
      try done.
    { by rewrite Hpayload. }
    cbn [cap_mem st1] in Hext. rewrite Hext. unfold array.
    destruct (bytes m1 !! a) as [arr|] eqn:Harr.
    + by rewrite (lookup_app_l_Some _ _ _ _ Harr).
    + simpl. lia.
  - unfold after_packet. by rewrite handlePacket_rejected.
Qed.

Lemma handle_frame_in_range st now f :
  capture_inv st →
  addresses_in_range st → addresses_in_range (handle_frame st (now, f)).1.
Proof.
  intros Hinv Hold k c Hrec.
  destruct (handle_frame_spec st now f Hinv) as (_ & _ & _ & Hno & Hyes).
  assert (∀ c0, flow_record st k = Some c0 →
            in_range (bytes (cap_mem (handle_frame st (now, f)).1)) (SrcIP c0) ∧
            in_range (bytes (cap_mem (handle_frame st (now, f)).1)) (DstIP c0))
    as Hkeep.
  { intros c0 Hc0. destruct (Hold k c0 Hc0) as [Hs Hd]. unfold in_range in *.
    pose proof (handle_frame_arrays_grow st now f (ip_arr (SrcIP c0)) Hinv).
    pose proof (handle_frame_arrays_grow st now f (ip_arr (DstIP c0)) Hinv).
    split; lia. }
  destruct (feeds (ip (cap_pcs st)) (uint16 (port (cap_pcs st))) k f)
    eqn:Hfeeds.
  - destruct (Hyes k Hfeeds) as (base & t & s' & Hmatch & Hrec' & _).
    rewrite Hrec' in Hrec. injection Hrec as <-.
    cbn [SrcIP DstIP set_IncomingData set_LastSeen].
    destruct (flow_record st k) as [c0|] eqn:Hc0.
    + destruct Hmatch as (-> & _). by apply Hkeep.
    + by destruct Hmatch as ((_ & ? & ?) & _).
  - destruct (Hno k Hfeeds) as (_ & Hsame & _). rewrite Hsame in Hrec.
    by apply Hkeep.
Qed.

Lemma reachable_in_range ip0 port0 evs :
  addresses_in_range (handle_frames (new_capture ip0 port0) evs).
Proof.
  induction evs as [|[now f] evs IH] using rev_ind.
  { intros k c. unfold flow_record. simpl. by rewrite lookup_empty. }
  rewrite handle_frames_app. simpl.
  apply handle_frame_in_range; [apply reachable_inv|done].
Qed.

(** When the library puts a frame in a new buffer, no byte array that
    exists is written to. *)
Lemma handle_frame_bytes_prefix st now f :
  capture_inv st → f_reuse f = None →
  bytes (cap_mem st) `prefix_of` bytes (cap_mem (handle_frame st (now, f)).1).
Proof.
  intros Hinv Hreuse.
  destruct (read_frame f (cap_mem st) (cap_bufs st)) as [[packet m1] bufs1]
    eqn:Hread.
  rewrite (handle_frame_after st now f packet m1 bufs1 Hread).
  assert (bytes (cap_mem st) `prefix_of` bytes m1) as Hpre1.
  { unfold read_frame in Hread. rewrite Hreuse in Hread.
    injection Hread as _ <- _. by apply prefix_app_r. }
  destruct (read_frame_inv st f packet m1 bufs1 Hinv Hread)
    as (Hinv1 & _ & _ & a & tail & -> & Ha & Hbody & Hwf).
  set (st1 := {| cap_pcs := cap_pcs st; cap_mem := m1; cap_bufs := bufs1 |}) in *.
  destruct (accepted (cap_pcs st) m1 (decode_frame f a)) eqn:Hacc.
  - destruct (ipv4Layer (decode_frame f a)) as [ip4|] eqn:Hip;
      [|by unfold accepted in Hacc; rewrite Hip in Hacc].
    destruct (tcpLayer (decode_frame f a)) as [tcp|] eqn:Htcp;
      [|by unfold accepted in Hacc; rewrite Hip, Htcp in Hacc].
    destruct (decode_frame_layers (bytes m1) f a tail ip4 tcp Ha Hip Htcp)
      as (_ & Hpayload & _).
    destruct (handlePacket_inv st1 now (decode_frame f a) ip4 tcp)
      as (_ & _ & _ & _ & base & t & s' & _ & _ & _ & _ & Hprefix); try done.
    { by rewrite Hpayload. }
    by etrans.
  - unfold after_packet. by rewrite handlePacket_rejected.
Qed.

Lemma handle_frame_shows_key st now f :
  capture_inv st → f_reuse f = None →
  addresses_in_range st →
  shows_key st → shows_key (handle_frame st (now, f)).1.
Proof.
  intros Hinv Hreuse Hrange Hshows k c Hrec.
  pose proof (handle_frame_bytes_prefix st now f Hinv Hreuse) as Hpre.
  destruct (handle_frame_spec st now f Hinv) as (_ & _ & _ & Hno & Hyes).
  assert (∀ c0, flow_record st k = Some c0 →
            Key (bytes (cap_mem (handle_frame st (now, f)).1)) c0 = k)
    as Hold.
  { intros c0 Hc0. destruct (Hrange k c0 Hc0) as [Hs Hd].
    rewrite (Key_prefix (bytes (cap_mem st))) by done. by apply Hshows. }
  destruct (feeds (ip (cap_pcs st)) (uint16 (port (cap_pcs st))) k f)
    eqn:Hfeeds.
  - destruct (Hyes k Hfeeds) as (base & t & s' & Hmatch & Hrec' & _).
    rewrite Hrec' in Hrec. injection Hrec as <-.
    change (Key ?bs (set_IncomingData s' (set_LastSeen t base)))
      with (Key bs base).
    destruct (flow_record st k) as [c0|] eqn:Hc0.
    + destruct Hmatch as (-> & _). by apply Hold.
    + by destruct Hmatch as ((? & _) & _).
  - destruct (Hno k Hfeeds) as (_ & Hsame & _). rewrite Hsame in Hrec.
    by apply Hold.
Qed.

Lemma handle_frames_shows_key ip0 port0 evs :
  Forall (λ ev, f_reuse ev.2 = None) evs →
  shows_key (handle_frames (new_capture ip0 port0) evs).
Proof.
  induction evs as [|[now f] evs IH] using rev_ind; intros Hevs.
  { intros k c. unfold flow_record. simpl. by rewrite lookup_empty. }
  apply Forall_app in Hevs as [Hevs Hf]. apply Forall_cons in Hf as [Hf _].
  rewrite handle_frames_app. simpl.
  apply handle_frame_shows_key;
    [apply reachable_inv|exact Hf|apply reachable_in_range|by apply IH].
Qed.

(** X10: every Flow Record of a session is filed under a key whose source
    is the target (the configured address, and the configured port taken
    modulo 2^16), has the ports of that key, and is never marked finished:
    nothing in the capture sets IsFinished.  The addresses of the record are
    slices of the capture buffer: they always lie within an allocated byte
    array, and they show the addresses of the key as long as the capture
    library has put every frame in a buffer of its own. *)
Theorem flow_records_are_open_flows_of_target ip0 port0 evs k c :
  flow_record (handle_frames (new_capture ip0 port0) evs) k = Some c →
  kSrcIP k = ip0 ∧ kSrcPort k = uint16 port0 ∧
  SrcPort c = kSrcPort k ∧ DstPort c = kDstPort k ∧
  IsFinished c = false ∧
  in_range (bytes (cap_mem (handle_frames (new_capture ip0 port0) evs)))
    (SrcIP c) ∧
  in_range (bytes (cap_mem (handle_frames (new_capture ip0 port0) evs)))
    (DstIP c) ∧
  (Forall (λ ev, f_reuse ev.2 = None) evs →
   Key (bytes (cap_mem (handle_frames (new_capture ip0 port0) evs))) c = k).
Proof.
  intros Hrec.
  destruct (handle_frames_record_fields ip0 port0 evs k c Hrec)
    as (Hfin & Hip & Hport).
  destruct (reachable_inv ip0 port0 evs) as (Hinv & _ & _).
  destruct (reachable_in_range ip0 port0 evs k c Hrec) as [Hrs Hrd].
  assert (SrcPort c = kSrcPort k ∧ DstPort c = kDstPort k) as [Hs Hd].
  { unfold flow_record in Hrec.
    destruct (connections _ !! k) as [p|] eqn:Hp; [|done]. simpl in Hrec.
    destruct (table_valid _ Hinv k p Hp) as (c' & Hc' & Hs & Hd).
    by assert (c' = c) as <- by congruence. }
  split_and!; try done.
  intros Hevs. by apply (handle_frames_shows_key ip0 port0 evs Hevs k c).
Qed.

Lemma flow_records_are_open_flows_of_target_witness :
  ∃ c,
    flow_record (handle_frames (new_capture "219.84.200.54" 6900) two_replies)
      reply_key = Some c ∧
    SrcPort c = 6900%Z ∧ DstPort c = 50000%Z ∧ IsFinished c = false ∧
    Key (bytes (cap_mem (handle_frames (new_capture "219.84.200.54" 6900)
                           two_replies))) c = reply_key.
Proof.
  eexists. split; [reflexivity|].
  destruct (flow_records_are_open_flows_of_target "219.84.200.54" 6900
              two_replies reply_key _ eq_refl)
    as (_ & _ & Hs & Hd & Hfin & _ & _ & HK).
  split_and!; [exact Hs|exact Hd|exact Hfin|].
  apply HK. repeat constructor.
Defined.

(** ** Runs of a session: when StartCapture returns *)

Lemma handle_frame_cancelled st ev :
  cancelled (cap_pcs (handle_frame st ev).1) = cancelled (cap_pcs st).
Proof.
  unfold handle_frame.
  destruct (read_frame _ _ _) as [[packet m1] bufs1].
  pose proof (handlePacket_cancelled ev.1 packet (cap_pcs st) m1) as Hc.
  by destruct (handlePacket _ _ _ _) as [[pcs' m'] out].
Qed.

Section RunFacts.

Context {Device CharacterServerInfo : Type}.
Variable IsValidInterface : Device → bool.
Variable Parse : list byte → list byte → option (list CharacterServerInfo).

Lemma step_waits (s : Session) e p :
  never_notified (Running s) →
  cancelled (cap_pcs (capture s)) = false → consumer s = CWaiting →
  is_cancel e = false →
  step Parse s e = Some p →
  cancelled (cap_pcs (capture (session_of p))) = false ∧
  consumer (session_of p) = CWaiting.
Proof.
  intros [Hgs _] Hc Hw He Hstep.
  destruct e as [i ok|i ok|i now f|i| |i|]; simpl in Hstep; try done.
  - destruct (goroutines s !! i) as [[]|]; try done.
    by destruct ok; simplify_eq.
  - destruct (goroutines s !! i) as [[]|]; try done.
    by destruct ok; simplify_eq.
  - destruct (goroutines s !! i) as [[]|]; try done.
    pose proof (handle_frame_cancelled (capture s) (now, f)) as Hc'.
    destruct (handle_frame (capture s) (now, f)) as [cap' effs].
    destruct (perform effs (stdout s)) as [g out].
    simplify_eq. simpl in *. by rewrite Hc'.
  - destruct (goroutines s !! i) as [[]|]; try done.
    by rewrite Hc in Hstep.
  - rewrite Hw in Hstep.
    destruct (goroutines s !! i) as [[]|] eqn:Hi; try done.
    by destruct (Hgs i c rest).
  - by rewrite Hw, Hc in Hstep.
Qed.

Lemma run_waits (p : Process) es :
  never_notified p →
  cancelled (cap_pcs (capture (session_of p))) = false →
  consumer (session_of p) = CWaiting →
  existsb is_cancel es = false →
  cancelled (cap_pcs (capture (session_of (run Parse p es)))) = false ∧
  consumer (session_of (run Parse p es)) = CWaiting.
Proof.
  revert p. induction es as [|e es IH]; intros p Hp Hc Hw Hes; simpl; [done|].
  simpl in Hes. apply orb_false_iff in Hes as [He Hes].
  destruct p as [s|st s]; [|done].
  destruct (step Parse s e) as [p'|] eqn:Hstep; [|by apply IH].
  destruct (step_waits s e p' Hp Hc Hw He Hstep) as [Hc' Hw'].
  apply IH; [by eapply step_never_notified|done..].
Qed.

(** X12: StartCapture returns only after the context of its service has been
    cancelled.  As long as nobody calls StopCapture, in every run, whatever
    the interfaces capture and also when no device could be enumerated, a
    process that is running has StartCapture in its loop with a live
    context; and a process that has exited did so with StartCapture still
    in its loop, without a result. *)
Theorem StartCapture_waits_for_StopCapture loginServers devs a svcs name es :
  existsb is_cancel es = false →
  match StartCapture_begin (CharacterServerInfo := CharacterServerInfo)
          IsValidInterface loginServers devs a svcs name with
  | Capturing _ _ s0 =>
      match run Parse (Running s0) es with
      | Running s =>
          consumer s = CWaiting ∧ cancelled (cap_pcs (capture s)) = false
      | Exited _ s => consumer s = CWaiting
      end
  | _ => True
  end.
Proof.
  intros Hes.
  destruct (StartCapture_begin _ _ _ _ _ _) as [| |a' svcs' s0] eqn:Hbegin;
    [done..|].
  pose proof (StartCapture_begin_never_notified _ _ _ _ _ _ _ _ _ Hbegin)
    as Hnever.
  assert (cancelled (cap_pcs (capture s0)) = false ∧ consumer s0 = CWaiting)
    as [Hc Hw].
  { unfold StartCapture_begin in Hbegin. repeat case_match; by simplify_eq. }
  destruct (run_waits (Running s0) es Hnever Hc Hw Hes) as [Hc' Hw'].
  by destruct (run Parse (Running s0) es).
Qed.

End RunFacts.

Lemma StartCapture_waits_for_StopCapture_witness :
  match StartCapture_begin (CharacterServerInfo := nat)
          (λ _ : string, true) loginServers_default two_devices app_idle []
          "Taiwan" with
  | Capturing _ _ s0 =>
      match run toy_decoder (Running s0) uncancelled_run with
      | Running s =>
          consumer s = CWaiting ∧ cancelled (cap_pcs (capture s)) = false
      | Exited _ s => consumer s = CWaiting
      end
  | _ => True
  end.
Proof.
  apply (StartCapture_waits_for_StopCapture (λ _ : string, true) toy_decoder
           loginServers_default two_devices app_idle [] "Taiwan"
           uncancelled_run).
  reflexivity.
Defined.

(** ** From the frames of a flow to the candidates of the decoder *)

Lemma GetIncomingDataSortedByLength_bytes m c r m' :
  GetIncomingDataSortedByLength m c = Some (r, m') → bytes m' = bytes m.
Proof.
  unfold GetIncomingDataSortedByLength. intros Hget.
  repeat case_match; by simplify_eq.
Qed.

Lemma StronglySorted_fmap_lengths (bs : heap byte) (l : list Payload) :
  Forall (λ x, wf_slice bs x = true) l →
  StronglySorted longer_eq l →
  StronglySorted (λ x y : list byte, length y ≤ length x) (view bs <$> l).
Proof.
  intros Hwf Hl. induction Hl as [|x l Hl IH Hx]; [constructor|].
  apply Forall_cons in Hwf as [Hwx Hwl].
  rewrite fmap_cons. apply SSorted_cons; [by apply IH|].
  apply Forall_fmap, Forall_forall. intros y Hy. simpl.
  rewrite Forall_forall in Hx, Hwl.
  rewrite !view_length by auto. by apply Hx.
Qed.

(** X14: for every flow in the table of a session, sorting its record
    succeeds and yields, as the candidates for the decoder, exactly the
    non-empty payloads of the frames of that flow (each as often as it was
    captured), the longest first. *)
Theorem candidates_are_flow_payloads ip0 port0 evs k p :
  connections (cap_pcs (handle_frames (new_capture ip0 port0) evs)) !! k
    = Some p →
  ∃ rm,
    GetIncomingDataSortedByLength
      (cap_mem (handle_frames (new_capture ip0 port0) evs)) p = Some rm ∧
    candidates rm ≡ₚ spec_chunks ip0 (uint16 port0) k evs.*2 ∧
    StronglySorted (λ x y : list byte, length y ≤ length x) (candidates rm).
Proof.
  intros Hp. set (st := handle_frames (new_capture ip0 port0) evs) in *.
  destruct (reachable_inv ip0 port0 evs) as (Hinv & _ & _). fold st in Hinv.
  destruct (table_valid st Hinv k p Hp) as (c & Hc & Hkey).
  assert (flow_record st k = Some c) as Hrec.
  { unfold flow_record. rewrite Hp. done. }
  pose proof (chunks_wf st Hinv k c Hrec) as Hwf.
  destruct (GetIncomingDataSortedByLength_view (cap_mem st) p c Hc Hwf)
    as (r & m' & Hget & Hview).
  pose proof (GetIncomingDataSortedByLength_bytes _ _ _ _ Hget) as Hbytes.
  exists (r, m'). split; [done|]. unfold candidates. simpl.
  rewrite Hview, Hbytes. split.
  - rewrite sort_list_perm.
    change (chunk_bytes (cap_mem st) c
              ≡ₚ spec_chunks ip0 (uint16 port0) k evs.*2).
    assert (flow_chunks st k = Some (chunk_bytes (cap_mem st) c)) as Hchunks.
    { unfold flow_chunks. by rewrite Hrec. }
    unfold st in Hchunks.
    rewrite handle_frames_chunks, spec_feed_foldl in Hchunks
      by apply new_capture_inv.
    assert (flow_chunks (new_capture ip0 port0) k = None) as Hnew.
    { unfold flow_chunks, flow_record. simpl. by rewrite lookup_empty. }
    rewrite Hnew in Hchunks. simpl in Hchunks.
    destruct (existsb _ _); [|done].
    apply (inj Some) in Hchunks. unfold st. by rewrite <-Hchunks.
  - apply StronglySorted_fmap_lengths; [|apply sort_list_sorted].
    apply Forall_forall. intros x Hx. rewrite sort_list_perm in Hx.
    by destruct (chunks_owned st Hinv k c x Hrec Hx).
Qed.

Lemma candidates_are_flow_payloads_witness :
  ∃ rm,
    GetIncomingDataSortedByLength
      (cap_mem (handle_frames (new_capture "219.84.200.54" 6900)
                  three_replies)) 0 = Some rm ∧
    candidates rm
      ≡ₚ spec_chunks "219.84.200.54" (uint16 6900) reply_key three_replies.*2 ∧
    StronglySorted (λ x y : list byte, length y ≤ length x) (candidates rm).
Proof.
  apply (candidates_are_flow_payloads "219.84.200.54" 6900 three_replies
           reply_key 0).
  reflexivity.
Defined.

(** ** Custom servers at capture time *)

Section CustomTarget.

Context {Device CharacterServerInfo : Type}.
Variable IsValidInterface : Device → bool.

(** X15: a custom server loaded at start-up is the one StartCapture captures
    from under its name, also when a built-in server has that name: the
    session filters on the address and port of the last custom server with
    the name and decodes with its pattern. *)
Theorem StartCapture_uses_custom_server loginServers customServers c
    devs a svcs name :
  last (filter (λ x, Name x = name) customServers) = Some c →
  match StartCapture_begin (CharacterServerInfo := CharacterServerInfo)
          IsValidInterface (startup loginServers (Some customServers))
          devs a svcs name with
  | Capturing _ _ s0 =>
      capture s0 = new_capture (srv_IP c) (srv_Port c) ∧
      pattern s0 = Pattern c
  | ReturnedNil _ _ => False
  | NilDereference => isCapturing a = true ∧ packetCaptureService a = None
  end.
Proof.
  intros Hlast.
  assert (find_server (startup loginServers (Some customServers)) name = Some c)
    as Hfind.
  { unfold startup.
    destruct (Nat.eqb_spec (length customServers) 0) as [Hlen|_].
    - apply nil_length_inv in Hlen. by subst.
    - by rewrite find_server_foldl_merge, Hlast. }
  unfold StartCapture_begin. rewrite Hfind.
  destruct (isCapturing a) eqn:Hflag, (packetCaptureService a) as [q|] eqn:Hq;
    simpl; try rewrite bool_decide_eq_true_2 by eauto;
    try rewrite bool_decide_eq_false_2 by (by intros [? [=]]);
    try done;
    by destruct (StartCaptureAllInterfaces _ _ _).
Qed.

End CustomTarget.

Lemma StartCapture_uses_custom_server_witness :
  match StartCapture_begin (CharacterServerInfo := nat) (λ _ : string, true)
          (startup loginServers_default (Some custom_servers))
          two_devices app_capturing [pcs_taiwan] "Taiwan" with
  | Capturing _ _ s0 =>
      capture s0 = new_capture "10.0.0.2" 6901 ∧ pattern s0 = [x01]
  | ReturnedNil _ _ => False
  | NilDereference =>
      isCapturing app_capturing = true ∧
      packetCaptureService app_capturing = None
  end.
Proof.
  apply (StartCapture_uses_custom_server (CharacterServerInfo := nat)
           (λ _ : string, true) loginServers_default custom_servers
           {| Name := "Taiwan"; srv_IP := "10.0.0.2"; srv_Port := 6901;
              Pattern := [x01]; IsNumberResponse := false |}
           two_devices app_capturing [pcs_taiwan] "Taiwan").
  reflexivity.
Defined.
